(** * scec: the broker's order-book walk, exchange selection and the
      exchange base class, embedded from the Python sources.

    Numbers.  Prices, quantities and order sizes are Python [float | int]
    values; they are embedded as exact rationals [Q], compared with
    [Qeq].  The embedding therefore describes the arithmetic of the code
    wherever no rounding takes place (integer-valued and dyadic inputs in
    particular); rounding of binary64 is outside of it.

    Objects.  An [OrderBook] is a mutable Python object.  The store maps
    object references to the current contents of each order book, and the
    walk of [Broker.get_estimated_market_buy_price] updates it in place,
    exactly as [order_book.asks.pop(0)] does. *)

From Stdlib Require Import QArith Qminmax Lqa ZArith Ascii.
From stdpp Require Import gmap strings list sorting.
From Equations Require Import Equations.

Local Open Scope string_scope.
Local Open Scope list_scope.

(** ** JSON values, as [Response.json()] returns them *)

#[warnings="-register-all"]
Inductive json :=
| JNull
| JBool (b : bool)
| JNumber (n : Q)
| JString (s : string)
| JArray (l : list json)
| JObject (o : gmap string json).

(** ** requests.Response: the fields the code reads.  [json_body] is what
    [response.json()] returns, [None] when it raises a JSONDecodeError
    (a [ValueError]). *)
Record Response := {
  status_code : Z;
  content : string;
  json_body : option json;
}.

(** ** scec/exchanges/exceptions.py *)

(** The values interpolated in an f-string, kept apart from its literal
    text. *)
Inductive fpiece :=
| FLit (s : string)
| FInt (z : Z)
| FJson (j : json)
| FBytes (b : string).

Definition fstring := list fpiece.

Inductive exn :=
| ExchangeAuthenticationError (msg : string)
| ExchangeBadResponseError (msg : fstring) (response : option Response)
| ExchangeRateLimitExceededError (msg : string)
| ExchangeInsufficientFundsError (msg : string)
| ExchangeLiquidityError (msg : string)
| ExchangePairDoesNotExistError (msg : string)
(* built-in exceptions the code can raise *)
| RuntimeError (msg : string)
| ZeroDivisionError
| TypeError
| IndexError
| KeyError (key : string)
| JSONDecodeError
| RetryError (last : exn).

(** [DocDefaultException.__init__]: [msg or self.__doc__]. *)
Definition DocDefaultException (doc : string) (msg : string) : string :=
  if decide (msg = "") then doc else msg.

Definition mk_ExchangeAuthenticationError (msg : string) : exn :=
  ExchangeAuthenticationError
    (DocDefaultException "There was a problem authenticating with this exchange" msg).
Definition mk_ExchangeInsufficientFundsError (msg : string) : exn :=
  ExchangeInsufficientFundsError
    (DocDefaultException "Insufficient funds in account to execute order" msg).
Definition mk_ExchangeLiquidityError (msg : string) : exn :=
  ExchangeLiquidityError
    (DocDefaultException "Insufficient liquidity in orderbook to fill order" msg).
Definition mk_ExchangePairDoesNotExistError (msg : string) : exn :=
  ExchangePairDoesNotExistError
    (DocDefaultException "The pair does not exist on this exchange" msg).

(** ** Results and the state of the object store *)

Definition result (A : Type) : Type := exn + A.

#[global] Instance result_ret : MRet result := fun A x => inr x.
#[global] Instance result_bind : MBind result := fun A B f m =>
  match m with inl e => inl e | inr x => f x end.

(** ** scec/exchanges/base.py: data classes *)

Record Pair := { base : string; quote : string; symbol : string }.

Record OrderBookOrder := { price : Q; quantity : Q }.

Record OrderBook := { bids : list OrderBookOrder; asks : list OrderBookOrder }.

(** References to order book objects, and the object store. *)
Abbreviation loc := nat (only parsing).
Abbreviation Store := (gmap nat OrderBook) (only parsing).

(** A computation that reads and updates the object store and may raise. *)
Definition M (A : Type) : Type := Store → result A * Store.

#[global] Instance M_ret : MRet M := fun A x s => (inr x, s).
#[global] Instance M_bind : MBind M := fun A B f m s =>
  match m s with
  | (inl e, s') => (inl e, s')
  | (inr x, s') => f x s'
  end.
Definition raise {A} (e : exn) : M A := fun s => (inl e, s).
Definition lift {A} (r : result A) : M A := fun s => (r, s).

(** ** Python arithmetic on numbers *)

(** [a > b] and [a >= b]. *)
Definition Qgtb (a b : Q) : bool := negb (Qle_bool a b).
Definition Qgeb (a b : Q) : bool := Qle_bool b a.

(** [a / b]: raises ZeroDivisionError on a zero divisor. *)
Definition truediv (a b : Q) : result Q :=
  if Qeq_bool b 0 then inl ZeroDivisionError else inr (a / b)%Q.

(** The built-in [sum]: a left fold from [0]. *)
Definition py_sum (l : list Q) : Q := fold_left Qplus l 0%Q.

(** ** scec/exchanges/base.py: CryptocurrencyExchange *)

(** An exchange instance.  [obj_id] is the identity of the Python object
    (what [is], the default [__eq__] and the default [__hash__] observe);
    [get_order_book] is the abstract method, which returns a reference to
    an [OrderBook] object. *)
Record CryptocurrencyExchange := {
  obj_id : nat;
  name : string;
  pairs : list Pair;
  get_order_book : string → M loc;
}.

(** The test of the loop of [get_pair]. *)
Definition pair_matches (symbol0 : string) (p : Pair) : bool :=
  bool_decide (symbol p = symbol0) || bool_decide (base p +:+ quote p = symbol0).

(** [CryptocurrencyExchange.get_pair], on the fields it reads. *)
Fixpoint get_pair_from (pairs0 : list Pair) (name0 : string) (symbol0 : string) : result Pair :=
  match pairs0 with
  | [] =>
      inl (mk_ExchangePairDoesNotExistError
             ("Trading pair '" +:+ symbol0 +:+ "' not found on '" +:+ name0 +:+ "'"))
  | p :: rest =>
      if pair_matches symbol0 p then inr p else get_pair_from rest name0 symbol0
  end.

Definition get_pair (self : CryptocurrencyExchange) (symbol0 : string) : result Pair :=
  get_pair_from (pairs self) (name self) symbol0.

(** [Binance.get_order_book] and [KrakenFutures.get_order_book], which
    differ only in the request they build: resolve the pair, query the
    venue for the native symbol ([orders_resp] stands for the request and
    gives the levels of the response, already converted with [float]),
    and build a new OrderBook object. *)
Definition adapter_get_order_book (pairs0 : list Pair) (name0 : string)
    (orders_resp : string → result (list (Q * Q) * list (Q * Q))) (pair0 : string) : M loc :=
  fun s =>
    match get_pair_from pairs0 name0 pair0 with
    | inl e => (inl e, s)
    | inr p =>
        match orders_resp (symbol p) with
        | inl e => (inl e, s)
        | inr (bids0, asks0) =>
            let order_book := fresh (dom s) in
            (inr order_book,
             <[order_book :=
                 {| bids := map (fun '(p, q) => {| price := p; quantity := q |}) bids0;
                    asks := map (fun '(p, q) => {| price := p; quantity := q |}) asks0 |}]> s)
        end
    end.

(** An instance of a concrete adapter class. *)
Definition adapter (id : nat) (name0 : string) (pairs0 : list Pair)
    (orders_resp : string → result (list (Q * Q) * list (Q * Q))) : CryptocurrencyExchange :=
  {| obj_id := id; name := name0; pairs := pairs0;
     get_order_book := adapter_get_order_book pairs0 name0 orders_resp |}.

(** [_send] under [tenacity.retry(stop=stop_after_attempt(5))]:
    [session_send n] is the outcome of the [n]-th call of
    [Session().send(prepared_request)]; a raised exception is retried until
    the fifth attempt, whose failure surfaces as a RetryError. *)
Fixpoint send_attempts (session_send : nat → result Response) (attempt remaining : nat)
  : result Response :=
  match session_send attempt with
  | inr response => inr response
  | inl e =>
      match remaining with
      | 0 => inl (RetryError e)
      | S k => send_attempts session_send (S attempt) k
      end
  end.

Definition _send (session_send : nat → result Response) : result Response :=
  send_attempts session_send 0 4.

(** [response.json()]. *)
Definition response_json_of (response : Response) : result json :=
  match json_body response with
  | None => inl JSONDecodeError
  | Some j => inr j
  end.

(** The [try ... except] of [send_request] that picks the error message. *)
Definition error_msg (response : Response) : fpiece :=
  match json_body response with
  | None => FBytes (content response)              (* except ValueError *)
  | Some (JObject error_json) =>
      match error_json !! "msg" with
      | Some msg => FJson msg
      | None => FLit "Unknown error occurred."     (* except KeyError *)
      end
  | Some _ => FBytes (content response)            (* except TypeError *)
  end.

(** [CryptocurrencyExchange.send_request]; [codes.ok] is 200. *)
Definition send_request (session_send : nat → result Response)
    (callback : option (Response → result json)) : result json :=
  response ← _send session_send;
  if bool_decide (status_code response ≠ 200%Z) then
    inl (ExchangeBadResponseError
           [FLit "Request failed with status code "; FInt (status_code response);
            FLit ", error message: "; error_msg response]
           (Some response))
  else
    match callback with
    | Some cb => cb response
    | None => response_json_of response
    end.

(** ** scec/exchanges/kraken_futures.py *)

Definition error_mapping : gmap string (string → exn) :=
  list_to_map [
    ("apiLimitExceeded", ExchangeRateLimitExceededError);
    ("requiredArgumentMissing", fun msg => ExchangeBadResponseError [FLit msg] None);
    ("unavailable", fun msg => ExchangeBadResponseError [FLit msg] None);
    ("authenticationError", mk_ExchangeAuthenticationError);
    ("insufficientFunds", mk_ExchangeInsufficientFundsError);
    ("Bad Request", fun msg => ExchangeBadResponseError [FLit msg] None);
    ("Json Parse Error", fun msg => ExchangeBadResponseError [FLit msg] None);
    ("nonceBelowThreshold", mk_ExchangeAuthenticationError);
    ("Server Error", fun msg => ExchangeBadResponseError [FLit msg] None);
    ("unknownError", fun msg => ExchangeBadResponseError [FLit msg] None)
  ].

(** [key in value] for a str [key]: key membership in a dict, element
    membership in a list, substring test in a str, TypeError otherwise. *)
Definition py_contains (key : string) (value : json) : result bool :=
  match value with
  | JObject o => inr (bool_decide (is_Some (o !! key)))
  | JArray l =>
      inr (existsb (fun x => match x with JString s => bool_decide (s = key) | _ => false end) l)
  | JString s => inr (bool_decide (is_Some (String.index 0 key s)))
  | _ => inl TypeError
  end.

(** [value[key]] for a str [key]. *)
Definition py_getitem (value : json) (key : string) : result json :=
  match value with
  | JObject o =>
      match o !! key with
      | Some v => inr v
      | None => inl (KeyError key)
      end
  | _ => inl TypeError
  end.

(** [value in self.error_mapping.keys()]: unhashable values raise. *)
Definition in_error_mapping (value : json) : result bool :=
  match value with
  | JString s => inr (bool_decide (is_Some (error_mapping !! s)))
  | JArray _ | JObject _ => inl TypeError
  | _ => inr false
  end.

(** [KrakenFutures.handle_response]. *)
Definition handle_response (response : Response) : result json :=
  response_json ← response_json_of response;
  has_result ← py_contains "result" response_json;
  if negb has_result then
    inl (ExchangeBadResponseError
           [FLit "Kraken Futures API error: "; FJson response_json] None)
  else
    has_error ← py_contains "error" response_json;
    known ← (if has_error : bool then
               error ← py_getitem response_json "error"; in_error_mapping error
             else inr false);
    if known : bool then
      error ← py_getitem response_json "error";
      match error with
      | JString s =>
          match error_mapping !! s with
          | Some cls => inl (cls s)
          | None => inl (KeyError s)
          end
      | _ => inl TypeError
      end
    else inr response_json.

(** ** heapq (CPython's Lib/heapq.py), on a Python list used as an array.
    [lt a b] is [a < b], which may raise. *)

Section heapq.
Context {A : Type} (lt : A → A → result bool).

(** [heap[pos]]: IndexError out of range. *)
Definition py_index (heap : list A) (pos : nat) : result A :=
  match heap !! pos with
  | Some x => inr x
  | None => inl IndexError
  end.

(** The [while pos > startpos] loop of [_siftdown]. *)
Equations? siftdown_loop (heap : list A) (newitem : A) (startpos pos : nat)
  : result (list A * nat) by wf pos Nat.lt :=
  siftdown_loop heap newitem startpos pos with decide (startpos < pos) => {
    | right _ => inr (heap, pos)
    | left Hlt with py_index heap ((pos - 1) / 2) => {
        | inl e => inl e
        | inr parent with lt newitem parent => {
            | inl e => inl e
            | inr true =>
                siftdown_loop (<[pos := parent]> heap) newitem startpos ((pos - 1) / 2)
            | inr false => inr (heap, pos) } } }.
Proof.
  change (((pos - 1) / 2 < pos)%nat).
  apply Nat.Div0.div_lt_upper_bound; lia.
Qed.

Definition _siftdown (heap : list A) (startpos pos : nat) : result (list A) :=
  newitem ← py_index heap pos;
  '(heap, pos) ← siftdown_loop heap newitem startpos pos;
  mret (<[pos := newitem]> heap).

(** The [while childpos < endpos] loop of [_siftup]; [pos] is the hole
    and [childpos = 2*pos + 1]. *)
Equations? siftup_loop (heap : list A) (endpos pos : nat)
  : result (list A * nat) by wf (endpos - pos) Nat.lt :=
  siftup_loop heap endpos pos with decide (2 * pos + 1 < endpos) => {
    | right _ => inr (heap, pos)
    | left Hlt with
        (if decide (2 * pos + 1 + 1 < endpos) then
           l ← py_index heap (2 * pos + 1);
           r ← py_index heap (2 * pos + 1 + 1);
           c ← lt l r;
           mret (negb c)
         else mret false) => {
        | inl e => inl e
        | inr true with py_index heap (2 * pos + 1 + 1) => {
            | inl e => inl e
            | inr child =>
                siftup_loop (<[pos := child]> heap) endpos (2 * pos + 1 + 1) }
        | inr false with py_index heap (2 * pos + 1) => {
            | inl e => inl e
            | inr child =>
                siftup_loop (<[pos := child]> heap) endpos (2 * pos + 1) } } }.
Proof. all: lia. Qed.

Definition _siftup (heap : list A) (pos : nat) : result (list A) :=
  let endpos := length heap in
  let startpos := pos in
  newitem ← py_index heap pos;
  '(heap, pos) ← siftup_loop heap endpos pos;
  _siftdown (<[pos := newitem]> heap) startpos pos.

Definition heappush (heap : list A) (item : A) : result (list A) :=
  let heap := heap ++ [item] in
  _siftdown heap 0 (length heap - 1).

(** Returns the popped item and the heap after the call. *)
Definition heappop (heap : list A) : result (A * list A) :=
  match last heap with
  | None => inl IndexError
  | Some lastelt =>
      let heap := removelast heap in
      match heap with
      | returnitem :: _ =>
          heap ← _siftup (<[0 := lastelt]> heap) 0;
          mret (returnitem, heap)
      | [] => mret (lastelt, heap)
      end
  end.
End heapq.

(** ** scec/broker.py *)

Definition Fill : Type := Q * Q.   (* (price, amount) *)

(** The [while order_size > 0 and order_book.asks] loop, on the current
    contents of [order_book.asks]: returns what is left of the asks after
    the [pop(0)] calls, the final [order_size] and
    [fill_amounts_at_price]. *)
Fixpoint walk_asks (asks0 : list OrderBookOrder) (order_size : Q) (fills : list Fill)
  : list OrderBookOrder * Q * list Fill :=
  match asks0 with
  | [] => (asks0, order_size, fills)
  | ask :: rest =>
      if Qgtb order_size 0 then
        if Qgeb (quantity ask) order_size then
          walk_asks rest 0%Q (fills ++ [(price ask, order_size)])
        else
          walk_asks rest (order_size - quantity ask)%Q (fills ++ [(price ask, quantity ask)])
      else (asks0, order_size, fills)
  end.

(** Attribute access on an object reference.  Every reference an exchange
    returns is live; a dangling one has no Python counterpart and is
    reported as a RuntimeError of the embedding. *)
Definition load (order_book : loc) : M OrderBook := fun s =>
  match s !! order_book with
  | Some b => (inr b, s)
  | None => (inl (RuntimeError "dangling reference"), s)
  end.

Definition store_asks (order_book : loc) (asks' : list OrderBookOrder) : M unit := fun s =>
  (inr tt, alter (fun b => {| bids := bids b; asks := asks' |}) order_book s).

(** Lines 48 to 67 of [get_estimated_market_buy_price]: the walk over the
    order book object [order_book]. *)
Definition walk_order_book (order_book : loc) (order_size : Q) : M Q :=
  b ← load order_book;
  let '(asks', order_size, fill_amounts_at_price) := walk_asks (asks b) order_size [] in
  _ ← store_asks order_book asks';
  if Qgtb order_size 0 then
    raise (mk_ExchangeLiquidityError "Insufficient liquidity in orderbook to fill order")
  else
    let price_sum := py_sum (map (fun '(price, amount) => price * amount)%Q fill_amounts_at_price) in
    let amount_sum := py_sum (map (fun '(_, amount) => amount) fill_amounts_at_price) in
    market_price ← lift (truediv price_sum amount_sum);
    mret market_price.

(** [Broker.get_estimated_market_buy_price]. *)
Definition get_estimated_market_buy_price
    (exchange : CryptocurrencyExchange) (symbol0 : string) (order_size : Q) : M Q :=
  order_book ← get_order_book exchange symbol0;
  walk_order_book order_book order_size.

(** [asyncio.gather] over coroutines that never suspend: every task runs
    to completion in turn, and the first exception raised is the one
    propagated. *)
Fixpoint gather {A} (coros : list (M A)) : M (list A) := fun s =>
  match coros with
  | [] => (inr [], s)
  | c :: cs =>
      let '(r, s1) := c s in
      let '(rs, s2) := gather cs s1 in
      (match r, rs with
       | inl e, _ => inl e
       | inr _, inl e => inl e
       | inr x, inr xs => inr (x :: xs)
       end, s2)
  end.

(** [(p1, e1) < (p2, e2)] on tuples: the first differing component
    decides; exchanges define no ordering, so comparing two distinct
    instances raises TypeError. *)
Definition tuple_lt (a b : Q * CryptocurrencyExchange) : result bool :=
  if Qeq_bool a.1 b.1 then
    if bool_decide (obj_id a.2 = obj_id b.2) then inr false
    else inl TypeError
  else inr (Qgtb b.1 a.1).

(** The [for price, exchange in zip(prices, self.exchanges)] loop. *)
Fixpoint push_all (exchange_prices : list (Q * CryptocurrencyExchange))
    (items : list (Q * CryptocurrencyExchange)) : result (list (Q * CryptocurrencyExchange)) :=
  match items with
  | [] => inr exchange_prices
  | item :: rest =>
      exchange_prices ← heappush tuple_lt exchange_prices item;
      push_all exchange_prices rest
  end.

(** [Broker.get_lowest_market_buy_price]; [exchanges] lists
    [self.exchanges] in the iteration order of the set. *)
Definition get_lowest_market_buy_price
    (exchanges : list CryptocurrencyExchange) (symbol0 : string) (amount : Q)
  : M (Q * CryptocurrencyExchange) :=
  prices ← gather (map (fun exchange => get_estimated_market_buy_price exchange symbol0 amount)
                       exchanges);
  exchange_prices ← lift (push_all [] (zip prices exchanges));
  match exchange_prices with
  | _ :: _ =>
      '(best, _) ← lift (heappop tuple_lt exchange_prices);
      mret best
  | [] => raise (RuntimeError "No exchanges available to get lowest market price")
  end.

(** ** The rest of the embedded code *)

(** Built-in exceptions that the parsing code of the adapters can raise,
    beside those of [exn]. *)
Inductive failure :=
| Raised (e : exn)
| AttributeError
| ValueError.

Definition outcome (A : Type) : Type := failure + A.

#[global] Instance outcome_ret : MRet outcome := fun A x => inr x.
#[global] Instance outcome_bind : MBind outcome := fun A B f m =>
  match m with inl e => inl e | inr x => f x end.

(** [s.split(sep)] for a separator of one character. *)
Fixpoint split_on (sep : ascii) (s : string) : list string :=
  match s with
  | EmptyString => [EmptyString]
  | String c rest =>
      if Ascii.eqb c sep then EmptyString :: split_on sep rest
      else
        match split_on sep rest with
        | first :: others => String c first :: others
        | [] => [String c EmptyString]
        end
  end.

(** [entry[key]] on a JSON object whose values are strings. *)
Definition entry_getitem (entry : gmap string string) (key : string) : result string :=
  match entry !! key with
  | Some v => inr v
  | None => inl (KeyError key)
  end.

(** [CryptocurrencyExchange.__init__]: [usd_stablecoin or "USD"]. *)
Definition init_usd_stablecoin (usd_stablecoin : option string) : string :=
  match usd_stablecoin with
  | Some coin => if decide (coin = "") then "USD" else coin
  | None => "USD"
  end.

(** The loop of [Binance.load_exchange_pairs] over the [symbols] of the
    exchangeInfo response. *)
Fixpoint binance_load_loop (usd_stablecoin : string) (symbols : list (gmap string string))
    (pairs0 : list Pair) : result (list Pair) :=
  match symbols with
  | [] => inr pairs0
  | entry :: rest =>
      baseAsset ← entry_getitem entry "baseAsset";
      quoteAsset ← entry_getitem entry "quoteAsset";
      native ← entry_getitem entry "symbol";
      let pairs0 := pairs0 ++ [{| base := baseAsset; quote := quoteAsset; symbol := native |}] in
      let pairs0 :=
        if bool_decide (quoteAsset = usd_stablecoin) && negb (bool_decide (quoteAsset = "USD"))
        then pairs0 ++ [{| base := baseAsset; quote := "USD"; symbol := native |}]
        else pairs0 in
      binance_load_loop usd_stablecoin rest pairs0
  end.

Definition binance_load_exchange_pairs (usd_stablecoin : string)
    (symbols : list (gmap string string)) : result (list Pair) :=
  binance_load_loop usd_stablecoin symbols [].

(** The loop of [KrakenFutures.load_exchange_pairs] over the [tickers] of
    the response. *)
Fixpoint kraken_load_loop (tickers : list (gmap string string)) (pairs0 : list Pair)
  : outcome (list Pair) :=
  match tickers with
  | [] => inr pairs0
  | ticker :: rest =>
      wanted ← (if bool_decide (ticker !! "tag" = Some "perpetual") then
                  match ticker !! "symbol" with
                  | Some native => inr (String.prefix "PF_" native)
                  | None => inl AttributeError
                  end
                else inr false);
      if negb wanted then kraken_load_loop rest pairs0
      else
        match ticker !! "pair" with
        | None => inl (Raised (KeyError "pair"))
        | Some pair0 =>
            match split_on ":"%char pair0 with
            | [base0; quote0] =>
                match ticker !! "symbol" with
                | None => inl (Raised (KeyError "symbol"))
                | Some native =>
                    let pairs0 :=
                      pairs0 ++ [{| base := base0; quote := quote0; symbol := native |}] in
                    let pairs0 :=
                      if bool_decide (base0 = "XBT")
                      then pairs0 ++ [{| base := "BTC"; quote := quote0; symbol := native |}]
                      else pairs0 in
                    kraken_load_loop rest pairs0
                end
            | _ => inl ValueError
            end
        end
  end.

Definition kraken_load_exchange_pairs (tickers : list (gmap string string))
  : outcome (list Pair) :=
  kraken_load_loop tickers [].

(** [OrderAction] and [MarketOrder] of scec/exchanges/base.py. *)
Inductive OrderAction := BUY | SELL.

Record MarketOrder := {
  order_id : string;
  order_pair : string;
  order_action : OrderAction;
  order_fills : list Fill;
  order_quantity : Q;
  order_filled : Q;
  order_status : string;
  order_exchange : CryptocurrencyExchange;
}.


(** [Broker.execute_market_buy_for_lowest_price]; [execute_market_order]
    is the abstract method of the exchanges. *)
Definition execute_market_buy_for_lowest_price
    (execute_market_order : CryptocurrencyExchange → string → Q → OrderAction → M MarketOrder)
    (exchanges : list CryptocurrencyExchange) (symbol0 : string) (amount : Q) : M MarketOrder :=
  '(_, best_exchange) ← get_lowest_market_buy_price exchanges symbol0 amount;
  execute_market_order best_exchange symbol0 amount BUY.

(** The dispatch of [KrakenFutures.make_request], once the request is
    prepared and signed. *)
Definition kraken_make_request (session_send : nat → result Response) : result json :=
  send_request session_send (Some handle_response).

(** [KrakenFutures.execute_market_order].  The venue answers a sendorder
    request with a payload whose [sendStatus] holds the order id, the
    status and the order events; an event has a type and, when the venue
    gives them, a price and an amount (numbers, which [float] leaves as
    they are). *)
Record OrderEvent := {
  event_type : string;
  event_price : option Q;
  event_amount : option Q;
}.

Record SendStatus := {
  send_order_id : string;
  send_status : string;
  orderEvents : list OrderEvent;
}.

(** The parameters of the sendorder request. *)
Record SendOrder := {
  param_symbol : string;
  param_side : string;
  param_orderType : string;
  param_size : Q;
  param_leverage : Z;
}.

(** [action.value.lower()]. *)
Definition side_of (action : OrderAction) : string :=
  match action with BUY => "buy" | SELL => "sell" end.

(** [float(fill[key])] on an event. *)
Definition event_float (field : option Q) (key : string) : result Q :=
  match field with
  | Some x => inr x
  | None => inl (KeyError key)
  end.

(** A list comprehension whose element expression may raise. *)
Fixpoint comprehension {X Y} (f : X → result Y) (l : list X) : result (list Y) :=
  match l with
  | [] => inr []
  | x :: rest =>
      y ← f x;
      ys ← comprehension f rest;
      mret (y :: ys)
  end.

(** [make_request] stands for the authenticated request: it gives the
    response payload and its [sendStatus]. *)
Definition kraken_execute_market_order (self : CryptocurrencyExchange)
    (make_request : SendOrder → result (json * SendStatus))
    (pair0 : string) (order_size : Q) (action : OrderAction) : result MarketOrder :=
  p ← get_pair self pair0;
  let native := symbol p in
  '(response, sendStatus) ←
    make_request {| param_symbol := native; param_side := side_of action;
                    param_orderType := "mkt"; param_size := order_size;
                    param_leverage := 1 |};
  last_event ← match last (orderEvents sendStatus) with
                | Some event => inr event
                | None => inl IndexError
                end;
  if negb (bool_decide (event_type last_event = "EXECUTION")) then
    inl (ExchangeBadResponseError
           [FLit "Failed to fully execute market order for "; FLit native; FLit ": ";
            FJson response] None)
  else
    let order_events := orderEvents sendStatus in
    fills0 ← comprehension
               (fun fill =>
                  price0 ← event_float (event_price fill) "price";
                  amount ← event_float (event_amount fill) "amount";
                  mret (price0, amount)) order_events;
    amounts ← comprehension (fun fill => event_float (event_amount fill) "amount")
                            order_events;
    mret {| order_id := send_order_id sendStatus; order_pair := native;
            order_action := action; order_fills := fills0;
            order_quantity := order_size; order_filled := py_sum amounts;
            order_status := send_status sendStatus; order_exchange := self |}.

(** ** Definitions used to state the properties *)

Section statements.
Local Open Scope Q_scope.

(** The message the sentence of the specification describes: the JSON
    [msg] field when present, the raw body otherwise. *)
Definition spec_error_msg (response : Response) : fpiece :=
  match json_body response with
  | Some (JObject error_json) =>
      match error_json !! "msg" with
      | Some msg => FJson msg
      | None => FBytes (content response)
      end
  | _ => FBytes (content response)
  end.

Definition bad_response_with (msg : fpiece) (response : Response) : exn :=
  ExchangeBadResponseError
    [FLit "Request failed with status code "; FInt (status_code response);
     FLit ", error message: "; msg]
    (Some response).

(** A 500 response whose body is the JSON object [{}]. *)
Definition empty_object_response : Response :=
  {| status_code := 500; content := "{}"; json_body := Some (JObject ∅) |}.

(** The exception of the shared taxonomy for each error code of the venue,
    written out from the sentence of the specification: rate limit,
    authentication failure and stale nonce, insufficient funds, and the
    bad-request and server errors as bad responses. *)
Definition kraken_exception (error : string) : option exn :=
  if decide (error = "apiLimitExceeded") then
    Some (ExchangeRateLimitExceededError error)
  else if decide (error = "authenticationError" ∨ error = "nonceBelowThreshold") then
    Some (ExchangeAuthenticationError error)
  else if decide (error = "insufficientFunds") then
    Some (ExchangeInsufficientFundsError error)
  else if decide (error ∈ ["requiredArgumentMissing"; "unavailable"; "Bad Request";
                           "Json Parse Error"; "Server Error"; "unknownError"]) then
    Some (ExchangeBadResponseError [FLit error] None)
  else None.

(** An error payload with a code the mapping does not list. *)
Definition unmapped_error_payload : gmap string json :=
  {[ "result" := JString "error"; "error" := JString "marketUnavailable" ]}.

Definition unmapped_error_response : Response :=
  {| status_code := 200; content := ""; json_body := Some (JObject unmapped_error_payload) |}.

(** Σ over a list of numbers. *)
Definition Qsum (l : list Q) : Q := foldr Qplus 0 l.

(** The total quantity resting on a side of the book. *)
Definition total_quantity (levels : list OrderBookOrder) : Q :=
  Qsum (map quantity levels).




Definition level (p q : Q) : OrderBookOrder := {| price := p; quantity := q |}.

(** The pair directories of the fixtures of the test suite. *)
Definition binance_pairs : list Pair :=
  [ {| base := "BTC"; quote := "USDT"; symbol := "BTCUSDT" |};
    {| base := "BTC"; quote := "USD"; symbol := "BTCUSDT" |};
    {| base := "ADA"; quote := "EUR"; symbol := "ADAEUR" |} ].

Definition kraken_pairs : list Pair :=
  [ {| base := "XBT"; quote := "USD"; symbol := "PF_XBTUSD" |};
    {| base := "BTC"; quote := "USD"; symbol := "PF_XBTUSD" |};
    {| base := "ADA"; quote := "EUR"; symbol := "PF_ADAEUR" |} ].

(** The best bid and the first two ask levels of the ADAEUR book of the
    test suite, as the Binance adapter builds it. *)
Definition adaeur_book : OrderBook :=
  {| bids := [level 0.5475 5751]; asks := [level 0.5481 822; level 0.5482 876] |}.

(** A Binance instance whose venue answers with that book. *)
Definition binance_double : CryptocurrencyExchange :=
  adapter 1 "Binance" binance_pairs
    (λ _, inr ([(0.5475, 5751)], [(0.5481, 822); (0.5482, 876)])).

(** [a] is not after [b]: [b < a] is false. *)
Definition not_after {A : Type} (lt : A → A → result bool) (a b : A) : Prop :=
  lt b a = inr false.

(** A heap whose first item is not after any other. *)
Definition root_first {A : Type} (lt : A → A → result bool) (heap : list A) : Prop :=
  ∃ r, heap !! 0%nat = Some r ∧ ∀ x, x ∈ heap → not_after lt r x.

(** No two tuples of the list carry equal prices. *)
Definition distinct_prices (items : list (Q * CryptocurrencyExchange)) : Prop :=
  ∀ i j a b, items !! i = Some a → items !! j = Some b → a.1 == b.1 → i = j.

(** A Kraken Futures instance whose venue quotes ADAEUR at 0.55. *)
Definition kraken_double : CryptocurrencyExchange :=
  adapter 2 "Kraken Futures" kraken_pairs (λ _, inr ([], [(0.55, 1000)])).

(** A second Binance instance, whose book gives the estimate of
    [kraken_double]. *)
Definition tied_double : CryptocurrencyExchange :=
  adapter 3 "Binance" binance_pairs (λ _, inr ([], [(0.55, 500)])).

End statements.





(** The first of the keys read by [Binance.load_exchange_pairs] that an
    entry lacks. *)
Definition binance_missing_key (entry : gmap string string) : option string :=
  match entry !! "baseAsset", entry !! "quoteAsset", entry !! "symbol" with
  | None, _, _ => Some "baseAsset"
  | Some _, None, _ => Some "quoteAsset"
  | Some _, Some _, None => Some "symbol"
  | Some _, Some _, Some _ => None
  end.

(** The entries of exchangeInfo and of tickers that the fixtures of the
    test suite stand for. *)
Definition binance_symbols : list (gmap string string) :=
  [ {[ "baseAsset" := "BTC"; "quoteAsset" := "USDT"; "symbol" := "BTCUSDT" ]};
    {[ "baseAsset" := "ADA"; "quoteAsset" := "EUR"; "symbol" := "ADAEUR" ]} ].

Definition kraken_tickers : list (gmap string string) :=
  [ {[ "pair" := "XBT:USD"; "symbol" := "PF_XBTUSD"; "tag" := "perpetual" ]};
    {[ "pair" := "ADA:USD"; "symbol" := "PI_ADAUSD"; "tag" := "month" ]};
    {[ "pair" := "ADA:EUR"; "symbol" := "PF_ADAEUR"; "tag" := "perpetual" ]} ].

(** The answer of the venue in the test of [execute_market_order]: one
    execution of 0.001 at 70658. *)
Definition kraken_send_status : SendStatus :=
  {| send_order_id := "11ebf140-39c7-4b84-96a3-427ab1e0bd5b"; send_status := "placed";
     orderEvents := [ {| event_type := "EXECUTION"; event_price := Some 70658%Q;
                         event_amount := Some 0.001%Q |} ] |}.

(** A session whose first [failures] calls raise and whose later calls
    return [empty_object_response]. *)
Definition flaky_session (failures : nat) : nat → result Response :=
  λ k, if decide (k < failures) then inl (RuntimeError "connection refused")
       else inr empty_object_response.

(** * Properties *)

(** ** Pair directory: [get_pair] *)

Lemma pair_matches_true symbol0 p :
  pair_matches symbol0 p = true ↔ symbol p = symbol0 ∨ base p +:+ quote p = symbol0.
Proof.
  unfold pair_matches. rewrite orb_true_iff, !bool_decide_eq_true. reflexivity.
Qed.

Lemma pair_matches_false symbol0 p :
  pair_matches symbol0 p = false ↔ symbol p ≠ symbol0 ∧ base p +:+ quote p ≠ symbol0.
Proof.
  unfold pair_matches. rewrite orb_false_iff, !bool_decide_eq_false. reflexivity.
Qed.

(** C6: [get_pair] returns the first pair, in load order, whose native
    symbol or whose base+quote concatenation equals the identifier; when no
    pair matches it raises ExchangePairDoesNotExistError, and the message
    holds the requested symbol and the name of the venue. *)
Theorem get_pair_first_match (self : CryptocurrencyExchange) (symbol0 : string) :
  (∃ before p after,
      pairs self = before ++ p :: after
      ∧ Forall (λ q, symbol q ≠ symbol0 ∧ base q +:+ quote q ≠ symbol0) before
      ∧ (symbol p = symbol0 ∨ base p +:+ quote p = symbol0)
      ∧ get_pair self symbol0 = inr p)
  ∨ (Forall (λ q, symbol q ≠ symbol0 ∧ base q +:+ quote q ≠ symbol0) (pairs self)
     ∧ get_pair self symbol0 =
         inl (ExchangePairDoesNotExistError
                ("Trading pair '" +:+ symbol0 +:+ "' not found on '" +:+ name self +:+ "'"))).
Proof.
  unfold get_pair. generalize (name self) as name0.
  induction (pairs self) as [|p rest IH]; intros name0.
  - right. split; [constructor |].
    cbn [get_pair_from]. unfold mk_ExchangePairDoesNotExistError.
    unfold DocDefaultException. case_decide as Hempty; [| reflexivity].
    simpl in Hempty. discriminate Hempty.
  - simpl. destruct (pair_matches symbol0 p) eqn:Hp.
    + left. exists [], p, rest. split_and!; auto.
      by apply pair_matches_true.
    + apply pair_matches_false in Hp.
      destruct (IH name0) as [(before & p' & after & -> & Hbefore & Hp' & Hget) | [Hall Hget]].
      * left. exists (p :: before), p', after. split_and!; auto.
      * right. split; [by constructor | exact Hget].
Qed.

(** The lookups of the test suite: an alias resolves to the native
    symbol, the native symbol to the first pair loaded, and an unknown
    identifier names itself and the venue. *)
Example get_pair_alias :
  get_pair kraken_double "BTCUSD"
  = inr {| base := "BTC"; quote := "USD"; symbol := "PF_XBTUSD" |}.
Proof. reflexivity. Qed.

Example get_pair_native_symbol :
  get_pair kraken_double "PF_XBTUSD"
  = inr {| base := "XBT"; quote := "USD"; symbol := "PF_XBTUSD" |}.
Proof. reflexivity. Qed.

Example get_pair_unknown :
  get_pair kraken_double "DOGEUSD"
  = inl (ExchangePairDoesNotExistError "Trading pair 'DOGEUSD' not found on 'Kraken Futures'").
Proof. reflexivity. Qed.

(** ** Request dispatch: [send_request] *)

Lemma send_request_not_ok session_send callback response :
  _send session_send = inr response →
  status_code response ≠ 200%Z →
  send_request session_send callback = inl (bad_response_with (error_msg response) response).
Proof.
  intros Hsend Hcode. unfold send_request. rewrite Hsend. simpl.
  rewrite bool_decide_eq_true_2 by done. reflexivity.
Qed.

(** C8, as stated, fails: for a JSON object without a [msg] key the
    message does not hold the raw body. *)
Lemma send_request_raw_body_counterexample :
  ¬ (∀ session_send callback response,
        _send session_send = inr response →
        ¬ (200 ≤ status_code response ≤ 299)%Z →
        ∃ msg,
          send_request session_send callback
          = inl (ExchangeBadResponseError msg (Some response))
          ∧ spec_error_msg response ∈ msg).
Proof.
  intros H.
  destruct (H (λ _, inr empty_object_response) None empty_object_response)
    as (msg & Hraise & Hmsg).
  - reflexivity.
  - simpl. lia.
  - rewrite (send_request_not_ok _ _ empty_object_response) in Hraise;
      [| reflexivity | simpl; lia].
    injection Hraise as <-.
    apply list_elem_of_In in Hmsg. simpl in Hmsg.
    destruct Hmsg as [Hm | [Hm | [Hm | [Hm | []]]]]; discriminate Hm.
Qed.

(** C8 (amended): a response with a non-2xx status raises
    ExchangeBadResponseError, which holds the response, and whose message
    holds the [msg] field of a JSON object body that has one, the text
    "Unknown error occurred." for a JSON object body without [msg], and
    the raw body when the body is not a JSON object. *)
Theorem send_request_non_2xx session_send callback response :
  _send session_send = inr response →
  ¬ (200 ≤ status_code response ≤ 299)%Z →
  send_request session_send callback
  = inl (ExchangeBadResponseError
           [FLit "Request failed with status code "; FInt (status_code response);
            FLit ", error message: ";
            match json_body response with
            | Some (JObject error_json) =>
                match error_json !! "msg" with
                | Some msg => FJson msg
                | None => FLit "Unknown error occurred."
                end
            | _ => FBytes (content response)
            end]
           (Some response)).
Proof.
  intros Hsend Hcode.
  rewrite (send_request_not_ok _ _ _ Hsend) by lia.
  unfold bad_response_with, error_msg.
  destruct (json_body response) as [[]|]; reflexivity.
Qed.

Lemma send_request_non_2xx_witness :
  send_request (λ _, inr empty_object_response) None
  = inl (ExchangeBadResponseError
           [FLit "Request failed with status code "; FInt 500;
            FLit ", error message: "; FLit "Unknown error occurred."]
           (Some empty_object_response)).
Proof.
  apply (send_request_non_2xx (λ _, inr empty_object_response) None empty_object_response).
  - reflexivity.
  - simpl. lia.
Defined.

(** ** Kraken Futures: [handle_response] *)

Lemma error_mapping_lookup (error : string) :
  (λ cls : string → exn, cls error) <$> (error_mapping !! error) = kraken_exception error.
Proof.
  unfold error_mapping.
  rewrite !list_to_map_cons, list_to_map_nil. cbn [fst snd].
  rewrite !lookup_insert, lookup_empty.
  repeat case_decide; subst; try reflexivity.
  unfold kraken_exception.
  rewrite !decide_False; [reflexivity | | | |];
    rewrite ?elem_of_cons, ?elem_of_nil; intuition congruence.
Qed.

Lemma bool_decide_is_Some {X} (o : option X) :
  bool_decide (is_Some o) = match o with Some _ => true | None => false end.
Proof.
  destruct o.
  - apply bool_decide_eq_true_2. eauto.
  - apply bool_decide_eq_false_2. by intros [? ?].
Qed.




(** ** Broker: the empty exchange set *)

(** C4: with no exchange registered, [get_lowest_market_buy_price] raises
    the error of the empty broker, a RuntimeError "No exchanges available
    to get lowest market price", and touches no object. *)
Theorem get_lowest_market_buy_price_empty (symbol0 : string) (amount : Q) (s : Store) :
  get_lowest_market_buy_price [] symbol0 amount s
  = (inl (RuntimeError "No exchanges available to get lowest market price"), s).
Proof. reflexivity. Qed.

(** ** Order-book walk *)

Section walk.
Local Open Scope Q_scope.

Lemma Qgtb_true a b : Qgtb a b = true ↔ b < a.
Proof.
  unfold Qgtb. rewrite negb_true_iff, <- not_true_iff_false, Qle_bool_iff.
  split; [apply Qnot_le_lt | apply Qlt_not_le].
Qed.

Lemma Qgtb_false a b : Qgtb a b = false ↔ a <= b.
Proof. unfold Qgtb. rewrite negb_false_iff. apply Qle_bool_iff. Qed.



Lemma fold_left_Qplus l a : fold_left Qplus l a == a + Qsum l.
Proof.
  revert a. induction l as [|x l IH]; intros a; simpl.
  - lra.
  - rewrite IH. lra.
Qed.

Lemma py_sum_Qsum l : py_sum l == Qsum l.
Proof. unfold py_sum. rewrite fold_left_Qplus. lra. Qed.

(** The accumulator of the loop only grows at its end. *)
Lemma walk_asks_acc asks0 order_size fills :
  walk_asks asks0 order_size fills
  = let '(rest, remaining, new) := walk_asks asks0 order_size [] in
    (rest, remaining, fills ++ new).
Proof.
  revert order_size fills. induction asks0 as [|ask rest IH]; intros order_size fills.
  - simpl. by rewrite app_nil_r.
  - simpl. destruct (Qgtb order_size 0); [| by rewrite app_nil_r].
    destruct (Qgeb (quantity ask) order_size).
    + rewrite (IH _ (fills ++ _)), (IH _ [_]).
      destruct (walk_asks rest 0 []) as [[? ?] ?]. by rewrite <- app_assoc.
    + rewrite (IH _ (fills ++ _)), (IH _ [_]).
      destruct (walk_asks rest _ []) as [[? ?] ?]. by rewrite <- app_assoc.
Qed.

Lemma walk_asks_done asks0 order_size fills :
  order_size <= 0 → walk_asks asks0 order_size fills = (asks0, order_size, fills).
Proof.
  intros H. destruct asks0; [reflexivity |]. simpl.
  by rewrite (proj2 (Qgtb_false _ _) H).
Qed.

(** One turn of the loop, with the fills in the order they are made. *)
Lemma walk_asks_cons ask rest order_size :
  0 < order_size →
  walk_asks (ask :: rest) order_size []
  = if Qgeb (quantity ask) order_size then (rest, 0, [(price ask, order_size)])
    else
      let '(rest', remaining, new) := walk_asks rest (order_size - quantity ask) [] in
      (rest', remaining, (price ask, quantity ask) :: new).
Proof.
  intros H. simpl. rewrite (proj2 (Qgtb_true _ _) H).
  destruct (Qgeb (quantity ask) order_size).
  - rewrite walk_asks_done by lra. reflexivity.
  - rewrite walk_asks_acc. reflexivity.
Qed.

(** What the walk leaves: the popped levels are a prefix of the asks,
    one fill per popped level, at the price of the level. *)
Lemma walk_asks_prefix asks0 order_size rest remaining fills :
  walk_asks asks0 order_size [] = (rest, remaining, fills) →
  asks0 = take (length fills) asks0 ++ rest
  ∧ map fst fills = map price (take (length fills) asks0).
Proof.
  revert order_size rest remaining fills.
  induction asks0 as [|ask asks1 IH]; intros order_size rest remaining fills Hw.
  - simpl in Hw. injection Hw as <- <- <-. done.
  - destruct (Qlt_le_dec 0 order_size) as [Hpos|Hle].
    + rewrite walk_asks_cons in Hw by done.
      destruct (Qgeb (quantity ask) order_size).
      * injection Hw as <- <- <-. done.
      * destruct (walk_asks asks1 _ []) as [[rest' remaining'] new] eqn:Hrec.
        injection Hw as <- <- <-.
        destruct (IH _ _ _ _ Hrec) as [Happ Hprices].
        simpl. split; [by rewrite <- Happ | by rewrite Hprices].
    + rewrite walk_asks_done in Hw by done. injection Hw as <- <- <-. done.
Qed.









Lemma alter_present (f : OrderBook → OrderBook) (r : loc) (s : Store) b :
  s !! r = Some b → alter f r s = <[r := f b]> s.
Proof.
  intros Hb. apply map_eq. intros i. rewrite lookup_alter, lookup_insert.
  case_decide; subst; [by rewrite Hb | reflexivity].
Qed.

(** The walk over a live order book object, in one step. *)
Lemma walk_order_book_run order_book order_size s b :
  s !! order_book = Some b →
  walk_order_book order_book order_size s
  = let '(rest, remaining, fills) := walk_asks (asks b) order_size [] in
    let s' := <[order_book := {| bids := bids b; asks := rest |}]> s in
    if Qgtb remaining 0 then
      (inl (ExchangeLiquidityError "Insufficient liquidity in orderbook to fill order"), s')
    else
      (truediv (py_sum (map (λ '(price, amount), price * amount) fills))
               (py_sum (map (λ '(_, amount), amount) fills)), s').
Proof.
  intros Hb. unfold walk_order_book, load, store_asks, raise, lift.
  unfold mbind, M_bind, mret, M_ret. rewrite Hb.
  destruct (walk_asks (asks b) order_size []) as [[rest remaining] fills].
  rewrite (alter_present _ _ _ _ Hb).
  destruct (Qgtb remaining 0); [reflexivity |].
  destruct (truediv _ _); reflexivity.
Qed.

Lemma get_estimated_market_buy_price_run exchange symbol0 order_size s order_book s1 :
  get_order_book exchange symbol0 s = (inr order_book, s1) →
  get_estimated_market_buy_price exchange symbol0 order_size s
  = walk_order_book order_book order_size s1.
Proof.
  intros Hget. unfold get_estimated_market_buy_price, mbind, M_bind.
  by rewrite Hget.
Qed.






(** C10: with an order size of zero, or a negative one, the loop takes
    no level and makes no fill, and the division of the two empty sums
    raises ZeroDivisionError. *)
Theorem non_positive_size_divides_by_zero exchange symbol0 order_size s order_book s1 b :
  get_order_book exchange symbol0 s = (inr order_book, s1) →
  s1 !! order_book = Some b →
  order_size <= 0 →
  walk_asks (asks b) order_size [] = (asks b, order_size, [])
  ∧ get_estimated_market_buy_price exchange symbol0 order_size s
    = (inl ZeroDivisionError, s1).
Proof.
  intros Hget Hb Hsize.
  pose proof (walk_asks_done (asks b) order_size [] Hsize) as Hw.
  split; [exact Hw |].
  rewrite (get_estimated_market_buy_price_run _ _ _ _ _ _ Hget).
  rewrite (walk_order_book_run _ _ _ _ Hb), Hw.
  rewrite (proj2 (Qgtb_false _ _) Hsize). cbn.
  f_equal. destruct b. by apply insert_id.
Qed.

Lemma non_positive_size_divides_by_zero_witness :
  walk_asks (asks adaeur_book) 0 [] = (asks adaeur_book, 0, [])
  ∧ get_estimated_market_buy_price binance_double "ADAEUR" 0 ∅
    = (inl ZeroDivisionError, {[ 0%nat := adaeur_book ]}).
Proof.
  apply (non_positive_size_divides_by_zero binance_double "ADAEUR" 0 ∅ 0%nat
           {[ 0%nat := adaeur_book ]} adaeur_book).
  - reflexivity.
  - reflexivity.
  - discriminate.
Defined.

(** C5, as stated, fails: the order book object the exchange returned
    has lost an ask level after the call. *)
Lemma order_book_mutated_counterexample :
  ¬ (∀ exchange symbol0 order_size s order_book s1 b,
        get_order_book exchange symbol0 s = (inr order_book, s1) →
        s1 !! order_book = Some b →
        (get_estimated_market_buy_price exchange symbol0 order_size s).2 !! order_book
        = Some b).
Proof.
  intros H.
  specialize (H binance_double "ADAEUR" 1000 ∅ 0%nat {[ 0%nat := adaeur_book ]} adaeur_book
                eq_refl eq_refl).
  vm_compute in H. discriminate H.
Qed.

(** C5 (amended): the walk works on the order book object itself: each
    level it fills is popped from the front of the asks of that object,
    so that after the call the asks are the levels the walk did not
    reach; the bids of the object and every other object are
    unchanged. *)
Theorem walk_pops_consumed_levels exchange symbol0 order_size s order_book s1 b :
  get_order_book exchange symbol0 s = (inr order_book, s1) →
  s1 !! order_book = Some b →
  ∃ rest remaining fills,
    walk_asks (asks b) order_size [] = (rest, remaining, fills)
    ∧ asks b = take (length fills) (asks b) ++ rest
    ∧ (get_estimated_market_buy_price exchange symbol0 order_size s).2
      = <[order_book := {| bids := bids b; asks := rest |}]> s1.
Proof.
  intros Hget Hb.
  destruct (walk_asks (asks b) order_size []) as [[rest remaining] fills] eqn:Hw.
  exists rest, remaining, fills. split; [reflexivity |].
  split; [by apply (walk_asks_prefix _ _ _ _ _ Hw) |].
  rewrite (get_estimated_market_buy_price_run _ _ _ _ _ _ Hget).
  rewrite (walk_order_book_run _ _ _ _ Hb), Hw.
  by destruct (Qgtb remaining 0).
Qed.

Lemma walk_pops_consumed_levels_witness :
  ∃ rest remaining fills,
    walk_asks (asks adaeur_book) 100 [] = (rest, remaining, fills)
    ∧ asks adaeur_book = take (length fills) (asks adaeur_book) ++ rest
    ∧ (get_estimated_market_buy_price binance_double "ADAEUR" 100 ∅).2
      = <[0%nat := {| bids := bids adaeur_book; asks := rest |}]> {[ 0%nat := adaeur_book ]}.
Proof.
  apply (walk_pops_consumed_levels binance_double "ADAEUR" 100 ∅ 0%nat
           {[ 0%nat := adaeur_book ]} adaeur_book).
  - reflexivity.
  - reflexivity.
Defined.
(** The estimates of the test suite: 100 ADA are filled from the first
    level, at 0.5481; an unknown pair propagates from the adapter. *)
Example estimate_adaeur_100 :
  ∃ market_price,
    (get_estimated_market_buy_price binance_double "ADAEUR" 100 ∅).1 = inr market_price
    ∧ market_price == 0.5481.
Proof. eexists. split; reflexivity. Qed.

Example estimate_unknown_pair :
  get_estimated_market_buy_price binance_double "DOGEUSD" 100 ∅
  = (inl (ExchangePairDoesNotExistError "Trading pair 'DOGEUSD' not found on 'Binance'"), ∅).
Proof. reflexivity. Qed.
End walk.

(** ** heapq: the loops never fail on comparable items, and the root of a
    heap built by pushes is a least item *)

Section heapq_facts.
Context {A : Type} (lt : A → A → result bool).

Lemma siftdown_loop_step heap newitem startpos pos :
  siftdown_loop lt heap newitem startpos pos
  = if decide (startpos < pos) then
      parent ← py_index heap ((pos - 1) / 2);
      c ← lt newitem parent;
      if c : bool then siftdown_loop lt (<[pos := parent]> heap) newitem startpos ((pos - 1) / 2)
      else inr (heap, pos)
    else inr (heap, pos).
Proof.
  simp siftdown_loop.
  destruct (decide (startpos < pos)); simp siftdown_loop; [| reflexivity].
  destruct (py_index heap ((pos - 1) / 2)) as [|parent]; simp siftdown_loop;
    [reflexivity |].
  cbn [mbind result_bind].
  destruct (lt newitem parent) as [|[]]; simp siftdown_loop; reflexivity.
Qed.

Lemma siftup_loop_step heap endpos pos :
  siftup_loop lt heap endpos pos
  = if decide (2 * pos + 1 < endpos) then
      pick_right ← (if decide (2 * pos + 1 + 1 < endpos) then
                      l ← py_index heap (2 * pos + 1);
                      r ← py_index heap (2 * pos + 1 + 1);
                      c ← lt l r;
                      mret (negb c)
                    else mret false);
      let childpos := if pick_right : bool then 2 * pos + 1 + 1 else 2 * pos + 1 in
      child ← py_index heap childpos;
      siftup_loop lt (<[pos := child]> heap) endpos childpos
    else inr (heap, pos).
Proof.
  simp siftup_loop.
  destruct (decide (2 * pos + 1 < endpos)); simp siftup_loop; [| reflexivity].
  destruct (if decide (2 * pos + 1 + 1 < endpos) then _ else _) as [|[]];
    simp siftup_loop; cbn [mbind result_bind]; [reflexivity | |].
  - destruct (py_index heap (2 * pos + 1 + 1)); cbn [mbind result_bind];
      simp siftup_loop; reflexivity.
  - destruct (py_index heap (2 * pos + 1)); cbn [mbind result_bind];
      simp siftup_loop; reflexivity.
Qed.
End heapq_facts.

(** ** Lists used as arrays *)

Lemma insert_swap_head {X} (l : list X) (j : nat) (x y : X) :
  l !! j = Some y → y :: <[j := x]> l ≡ₚ x :: l.
Proof.
  revert j. induction l as [|a l IH]; intros [|j] Hj; simplify_eq/=.
  - apply perm_swap.
  - rewrite perm_swap, (IH _ Hj). apply perm_swap.
Qed.

(** Writing [y], read at [j], into slot [i] and then [x] into slot [j]
    holds the same items as writing [x] into slot [i]. *)
Lemma insert_move {X} (l : list X) (i j : nat) (x y : X) :
  l !! j = Some y → i ≠ j → i < length l →
  <[j := x]> (<[i := y]> l) ≡ₚ <[i := x]> l.
Proof.
  revert i j. induction l as [|a l IH]; intros i j Hj Hne Hi; [simpl in Hi; lia |].
  destruct i as [|i], j as [|j]; simplify_eq/=.
  - by apply insert_swap_head.
  - destruct (lookup_lt_is_Some_2 l i ltac:(lia)) as [z Hz].
    apply (Permutation_cons_inv (a := z)).
    etrans; [apply perm_swap |].
    etrans; [apply perm_skip, (insert_swap_head _ _ _ _ Hz) |].
    etrans; [apply perm_swap |].
    etrans; [apply perm_skip; symmetry; apply (insert_swap_head _ _ _ _ Hz) |].
    apply perm_swap.
  - apply perm_skip, IH; [done | congruence | lia].
Qed.

Lemma elem_of_insert_inv {X} (l : list X) (i : nat) (x y : X) :
  y ∈ <[i := x]> l → y = x ∨ ∃ j, j ≠ i ∧ l !! j = Some y.
Proof.
  intros [j Hj]%list_elem_of_lookup.
  destruct (decide (j = i)) as [->|Hne].
  - left. apply lookup_lt_Some in Hj as Hlt. rewrite length_insert in Hlt.
    rewrite list_lookup_insert_eq in Hj by done. congruence.
  - right. exists j. rewrite list_lookup_insert_ne in Hj by done. done.
Qed.

Section heapq_order.
Context {A : Type} (lt : A → A → result bool) (P : A → Prop).

(** The items [P] holds of can be compared, and are ordered by [lt]. *)
Hypothesis lt_defined : ∀ a b, P a → P b → ∃ c, lt a b = inr c.
Hypothesis not_after_refl : ∀ a, P a → not_after lt a a.
Hypothesis not_after_trans :
  ∀ a b c, P a → P b → P c → not_after lt a b → not_after lt b c → not_after lt a c.
Hypothesis lt_not_after : ∀ a b, P a → P b → lt a b = inr true → not_after lt a b.

Lemma py_index_defined (heap : list A) pos :
  Forall P heap → pos < length heap → ∃ x, py_index heap pos = inr x ∧ heap !! pos = Some x ∧ P x.
Proof.
  intros HP Hpos. destruct (lookup_lt_is_Some_2 heap pos Hpos) as [x Hx].
  exists x. unfold py_index. rewrite Hx. split_and!; [done | done |].
  by eapply Forall_lookup_1.
Qed.

(** The loop of [_siftdown] raises nothing. *)
Lemma siftdown_loop_defined heap newitem startpos pos :
  Forall P heap → P newitem → pos < length heap →
  ∃ heap' pos',
    siftdown_loop lt heap newitem startpos pos = inr (heap', pos')
    ∧ Forall P heap' ∧ length heap' = length heap ∧ pos' < length heap'.
Proof.
  revert heap. induction pos as [pos IH] using lt_wf_ind. intros heap HP Hnew Hpos.
  rewrite siftdown_loop_step. destruct (decide (startpos < pos)) as [Hlt|]; [| by exists heap, pos].
  assert ((pos - 1) / 2 < pos) as Hparent by (apply Nat.Div0.div_lt_upper_bound; lia).
  destruct (py_index_defined heap ((pos - 1) / 2) HP ltac:(lia)) as (parent & -> & Hp & HPp).
  cbn [mbind result_bind].
  destruct (lt_defined newitem parent Hnew HPp) as [[] ->]; cbn [mbind result_bind];
    [| by exists heap, pos].
  destruct (IH _ Hparent (<[pos := parent]> heap)) as (heap' & pos' & -> & ? & Hlen & ?).
  - by apply Forall_insert.
  - done.
  - rewrite length_insert. lia.
  - exists heap', pos'. rewrite Hlen, length_insert in *. done.
Qed.

Lemma _siftdown_defined heap startpos pos :
  Forall P heap → pos < length heap →
  ∃ heap', _siftdown lt heap startpos pos = inr heap' ∧ Forall P heap'
           ∧ length heap' = length heap.
Proof.
  intros HP Hpos. unfold _siftdown.
  destruct (py_index_defined heap pos HP Hpos) as (newitem & -> & _ & Hnew).
  cbn [mbind result_bind].
  destruct (siftdown_loop_defined heap newitem startpos pos HP Hnew Hpos)
    as (heap' & pos' & -> & HP' & Hlen & ?).
  cbn [mbind result_bind]. eexists. split; [reflexivity |].
  split; [by apply Forall_insert | by rewrite length_insert].
Qed.

(** The loop of [_siftup] raises nothing. *)
Lemma siftup_loop_defined heap pos :
  Forall P heap → pos < length heap →
  ∃ heap' pos',
    siftup_loop lt heap (length heap) pos = inr (heap', pos')
    ∧ Forall P heap' ∧ length heap' = length heap ∧ pos' < length heap'.
Proof.
  remember (length heap - pos) as n eqn:Hn. revert heap pos Hn.
  induction n as [n IH] using lt_wf_ind. intros heap pos -> HP Hpos.
  rewrite siftup_loop_step.
  destruct (decide (2 * pos + 1 < length heap)) as [Hleft|]; [| by exists heap, pos].
  assert (∃ pick_right : bool,
             (if decide (2 * pos + 1 + 1 < length heap) then
                l ← py_index heap (2 * pos + 1);
                r ← py_index heap (2 * pos + 1 + 1);
                c ← lt l r;
                mret (negb c)
              else mret false) = inr pick_right
             ∧ (if pick_right then 2 * pos + 1 + 1 else 2 * pos + 1) < length heap)
    as (pick_right & -> & Hchild).
  { destruct (decide (2 * pos + 1 + 1 < length heap)) as [Hright|]; [| by exists false].
    destruct (py_index_defined heap _ HP Hleft) as (l & -> & _ & Hl).
    destruct (py_index_defined heap _ HP Hright) as (r & -> & _ & Hr).
    cbn [mbind result_bind].
    destruct (lt_defined l r Hl Hr) as [c ->]. cbn [mbind result_bind].
    exists (negb c). split; [done |]. by destruct c. }
  cbn [mbind result_bind]. cbv zeta.
  set (childpos := if pick_right then 2 * pos + 1 + 1 else 2 * pos + 1) in *.
  assert (pos < childpos) as Hdown by (subst childpos; destruct pick_right; lia).
  destruct (py_index_defined heap childpos HP Hchild) as (child & -> & _ & HPc).
  cbn [mbind result_bind].
  destruct (IH (length heap - childpos) ltac:(lia) (<[pos := child]> heap) childpos)
    as (heap' & pos' & Heq & ? & Hlen & ?).
  - by rewrite length_insert.
  - by apply Forall_insert.
  - by rewrite length_insert.
  - rewrite length_insert in Heq, Hlen. rewrite Heq. exists heap', pos'. done.
Qed.

Lemma _siftup_defined heap pos :
  Forall P heap → pos < length heap →
  ∃ heap', _siftup lt heap pos = inr heap' ∧ Forall P heap'.
Proof.
  intros HP Hpos. unfold _siftup.
  destruct (py_index_defined heap pos HP Hpos) as (newitem & -> & _ & Hnew).
  cbn [mbind result_bind].
  destruct (siftup_loop_defined heap pos HP Hpos) as (heap' & pos' & -> & HP' & Hlen & ?).
  cbn [mbind result_bind].
  destruct (_siftdown_defined (<[pos' := newitem]> heap') pos pos')
    as (heap'' & -> & ? & _).
  - by apply Forall_insert.
  - by rewrite length_insert.
  - eauto.
Qed.

(** Sifting [newitem] from the hole at [pos] towards the root: [r] is
    the item that is not after any item outside the hole, the root
    itself, or [newitem] once the hole is the root. *)
Lemma siftdown_loop_root heap newitem pos r :
  Forall P heap → P newitem → P r → pos < length heap →
  (∀ i x, i ≠ pos → heap !! i = Some x → not_after lt r x) →
  (pos ≠ 0 ∧ heap !! 0 = Some r) ∨ (pos = 0 ∧ r = newitem) →
  ∃ heap' pos',
    siftdown_loop lt heap newitem 0 pos = inr (heap', pos')
    ∧ <[pos' := newitem]> heap' ≡ₚ <[pos := newitem]> heap
    ∧ root_first lt (<[pos' := newitem]> heap').
Proof.
  revert heap r. induction pos as [pos IH] using lt_wf_ind.
  intros heap r HP Hnew Hr Hpos Hmin Hroot.
  rewrite siftdown_loop_step. destruct (decide (0 < pos)) as [Hlt|Hzero].
  - destruct Hroot as [[_ Hroot] | [? _]]; [| lia].
    assert ((pos - 1) / 2 < pos) as Hparent by (apply Nat.Div0.div_lt_upper_bound; lia).
    destruct (py_index_defined heap ((pos - 1) / 2) HP ltac:(lia)) as (parent & -> & Hp & HPp).
    cbn [mbind result_bind].
    assert (not_after lt r parent) as Hrp by (apply (Hmin ((pos - 1) / 2)); [lia | done]).
    destruct (lt_defined newitem parent Hnew HPp) as [[] Hc]; rewrite Hc;
      cbn [mbind result_bind].
    + (* the parent moves down into the hole *)
      set (r' := if decide ((pos - 1) / 2 = 0) then newitem else r).
      destruct (IH _ Hparent (<[pos := parent]> heap) r') as (heap' & pos' & -> & Hperm & Hfirst).
      * by apply Forall_insert.
      * done.
      * subst r'. by case_decide.
      * rewrite length_insert. lia.
      * intros i x Hi Hx. destruct (decide (i = pos)) as [->|Hne].
        -- rewrite list_lookup_insert_eq in Hx by done. injection Hx as <-.
           subst r'. case_decide as Hpp; [| done].
           by apply lt_not_after.
        -- rewrite list_lookup_insert_ne in Hx by done.
           assert (P x) by (by eapply Forall_lookup_1).
           subst r'. case_decide as Hpp; [| by apply (Hmin i)].
           rewrite Hpp in Hp. assert (parent = r) as -> by congruence.
           apply (not_after_trans _ r); [done .. | by apply lt_not_after | by apply (Hmin i)].
      * subst r'. case_decide as Hpp; [by right |]. left. split; [done |].
        rewrite list_lookup_insert_ne by lia. done.
      * exists heap', pos'. split_and!; [done | | done].
        rewrite Hperm. apply insert_move; [done | lia | done].
    + (* newitem stays in the hole *)
      exists heap, pos. split_and!; [done | done |].
      exists r. split; [by rewrite list_lookup_insert_ne by lia |].
      intros x [-> | (j & Hj & Hx)]%elem_of_insert_inv.
      * apply (not_after_trans _ parent); done.
      * by apply (Hmin j).
  - assert (pos = 0) as -> by lia.
    destruct Hroot as [[? _] | [_ ->]]; [done |].
    exists heap, 0. split_and!; [done | done |].
    exists newitem. split; [by rewrite list_lookup_insert_eq |].
    intros x [-> | (j & Hj & Hx)]%elem_of_insert_inv.
    + by apply not_after_refl.
    + by apply (Hmin j).
Qed.

(** [heappush] keeps the items and keeps a first item at the root. *)
Lemma heappush_root heap item :
  Forall P heap → P item → heap = [] ∨ root_first lt heap →
  ∃ heap', heappush lt heap item = inr heap'
           ∧ heap' ≡ₚ item :: heap ∧ root_first lt heap'.
Proof.
  intros HP Hitem Hheap. unfold heappush, _siftdown.
  rewrite length_app, Nat.add_sub. unfold py_index.
  rewrite lookup_app_r, Nat.sub_diag by done. cbn [lookup list_lookup mbind result_bind].
  assert (Forall P (heap ++ [item])) as HP' by (apply Forall_app; by repeat constructor).
  assert (<[length heap := item]> (heap ++ [item]) = heap ++ [item]) as Hsame.
  { apply list_insert_id. rewrite lookup_app_r, Nat.sub_diag by done. done. }
  assert (∃ r, P r
               ∧ (∀ i x, i ≠ length heap → (heap ++ [item]) !! i = Some x → not_after lt r x)
               ∧ ((length heap ≠ 0 ∧ (heap ++ [item]) !! 0 = Some r)
                  ∨ (length heap = 0 ∧ r = item))) as (r & Hr & Hmin & Hroot).
  { destruct Hheap as [-> | (r & Hr0 & Hmin)].
    - exists item. split_and!; [done | | by right].
      intros [|i] x Hi Hx; [done | by destruct i].
    - assert (0 < length heap) by (by eapply lookup_lt_Some).
      exists r. split_and!.
      + by apply (Forall_lookup_1 P heap 0 r).
      + intros i x Hi Hx. apply Hmin.
        destruct (decide (i < length heap)).
        * rewrite lookup_app_l in Hx by done. by eapply list_elem_of_lookup_2.
        * apply lookup_lt_Some in Hx. rewrite length_app in Hx. simpl in Hx. lia.
      + left. split; [lia |]. by rewrite lookup_app_l. }
  destruct (siftdown_loop_root (heap ++ [item]) item (length heap) r)
    as (heap' & pos' & -> & Hperm & Hfirst); try done.
  { rewrite length_app. simpl. lia. }
  cbn [mbind result_bind]. eexists. split; [reflexivity |].
  split; [| done].
  rewrite Hperm, Hsame. by rewrite Permutation_app_comm.
Qed.

(** [heappop] returns the root. *)
Lemma heappop_root r heap :
  Forall P (r :: heap) → ∃ heap', heappop lt (r :: heap) = inr (r, heap').
Proof.
  intros HP. unfold heappop.
  destruct (last (r :: heap)) as [lastelt|] eqn:Hlast;
    [| by apply last_None in Hlast].
  assert (P lastelt) as HPl.
  { apply last_Some in Hlast as [l' Hl']. rewrite Hl' in HP.
    apply Forall_app in HP as [_ HP]. by inversion HP. }
  destruct heap as [|a heap].
  - simpl in Hlast. injection Hlast as <-. cbn. eauto.
  - change (removelast (r :: a :: heap)) with (r :: removelast (a :: heap)).
    cbn [insert list_insert].
    destruct (_siftup_defined (lastelt :: removelast (a :: heap)) 0)
      as (heap' & -> & _).
    + constructor; [done |].
      apply Forall_cons in HP as [_ HP].
      eapply Forall_forall. intros x Hx. eapply Forall_forall; [exact HP |].
      apply list_elem_of_In. apply list_elem_of_In in Hx.
      destruct (exists_last (l := a :: heap) ltac:(done)) as (l' & z & Heq).
      rewrite Heq in Hx |- *. rewrite removelast_last in Hx.
      apply in_or_app. by left.
    + simpl. lia.
    + cbn [mbind result_bind]. eauto.
Qed.
End heapq_order.

Lemma heappush_empty {A} (lt : A → A → result bool) (x : A) :
  heappush lt [] x = inr [x].
Proof.
  unfold heappush, _siftdown.
  cbn [app length Nat.sub py_index lookup list_lookup mbind result_bind].
  rewrite siftdown_loop_step. reflexivity.
Qed.

Lemma heappush_singleton {A} (lt : A → A → result bool) (x y : A) :
  heappush lt [x] y = c ← lt y x; mret (if c : bool then [y; x] else [x; y]).
Proof.
  unfold heappush, _siftdown.
  cbn [app length Nat.sub py_index lookup list_lookup mbind result_bind].
  rewrite siftdown_loop_step. rewrite decide_True by lia.
  change ((1 - 1) / 2) with 0.
  cbn [py_index lookup list_lookup mbind result_bind].
  destruct (lt y x) as [|[]]; cbn [mbind result_bind]; [reflexivity | | reflexivity].
  rewrite siftdown_loop_step. reflexivity.
Qed.

(** ** Broker: the exchange with the lowest estimate *)

Section lowest.
Local Open Scope Q_scope.

Lemma distinct_prices_eq items a b :
  distinct_prices items → a ∈ items → b ∈ items → a.1 == b.1 → a = b.
Proof.
  intros Hd [i Hi]%list_elem_of_lookup [j Hj]%list_elem_of_lookup Heq.
  rewrite (Hd i j a b Hi Hj Heq) in Hi. congruence.
Qed.

Lemma tuple_lt_same a : tuple_lt a a = inr false.
Proof.
  unfold tuple_lt. rewrite (proj2 (Qeq_bool_iff _ _) (Qeq_refl _)).
  by rewrite bool_decide_eq_true_2.
Qed.

Lemma tuple_lt_differ a b : ¬ a.1 == b.1 → tuple_lt a b = inr (Qgtb b.1 a.1).
Proof.
  intros Hne. unfold tuple_lt.
  destruct (Qeq_bool a.1 b.1) eqn:Heq; [| done].
  by apply Qeq_bool_iff in Heq.
Qed.

Lemma tuple_lt_defined items a b :
  distinct_prices items → a ∈ items → b ∈ items → ∃ c, tuple_lt a b = inr c.
Proof.
  intros Hd Ha Hb. destruct (Qeq_dec a.1 b.1) as [Heq|Hne].
  - rewrite (distinct_prices_eq items a b Hd Ha Hb Heq), tuple_lt_same. eauto.
  - rewrite tuple_lt_differ by done. eauto.
Qed.

Lemma not_after_price items a b :
  distinct_prices items → a ∈ items → b ∈ items →
  not_after tuple_lt a b ↔ a.1 <= b.1.
Proof.
  intros Hd Ha Hb. unfold not_after. destruct (Qeq_dec b.1 a.1) as [Heq|Hne].
  - rewrite (distinct_prices_eq items b a Hd Hb Ha Heq), tuple_lt_same.
    split; [intros _; apply Qle_refl | done].
  - rewrite tuple_lt_differ by done. split.
    + intros [= H]. by apply Qgtb_false.
    + intros H. f_equal. by apply Qgtb_false.
Qed.

Lemma tuple_lt_true_price a b : tuple_lt a b = inr true → a.1 < b.1.
Proof.
  unfold tuple_lt. destruct (Qeq_bool a.1 b.1); [by case_bool_decide |].
  intros [= H]. by apply Qgtb_true.
Qed.

(** The push loop keeps every tuple and leaves a cheapest one at the
    root. *)
Lemma push_all_root items rest heap :
  distinct_prices items →
  Forall (λ x, x ∈ items) heap → Forall (λ x, x ∈ items) rest →
  heap = [] ∨ root_first tuple_lt heap →
  ∃ heap', push_all heap rest = inr heap'
           ∧ heap' ≡ₚ heap ++ rest
           ∧ (heap' = [] ∨ root_first tuple_lt heap').
Proof.
  intros Hd. revert heap. induction rest as [|x rest IH]; intros heap Hheap Hrest Hroot.
  - exists heap. by rewrite app_nil_r.
  - apply Forall_cons in Hrest as [Hx Hrest]. cbn [push_all].
    destruct (heappush_root tuple_lt (λ x, x ∈ items)) with (heap := heap) (item := x)
      as (heap1 & -> & Hperm & Hfirst); try done.
    + intros. by eapply tuple_lt_defined.
    + intros a Ha. apply tuple_lt_same.
    + intros a b c Ha Hb Hc.
      rewrite !(not_after_price items) by done. apply Qle_trans.
    + intros a b Ha Hb Hlt%tuple_lt_true_price.
      apply (not_after_price items); [done .. |]. by apply Qlt_le_weak.
    + cbn [mbind result_bind].
      destruct (IH heap1) as (heap' & -> & Hperm' & Hfirst'); [| done | by right |].
      * rewrite Hperm. by constructor.
      * exists heap'. split_and!; [done | | done].
        rewrite Hperm', Hperm. simpl. apply Permutation_middle.
Qed.

Lemma gather_length {X} (coros : list (M X)) s results s' :
  gather coros s = (inr results, s') → length results = length coros.
Proof.
  revert s results s'. induction coros as [|c coros IH]; intros s results s' Hg.
  - simpl in Hg. by injection Hg as <- <-.
  - simpl in Hg. destruct (c s) as [r s1].
    destruct (gather coros s1) as [rs s2] eqn:Hrec.
    destruct r as [e|x], rs as [e'|xs]; try discriminate.
    injection Hg as <- <-. simpl. f_equal. by eapply IH.
Qed.

(** C3: when every exchange returns an estimate and no two estimates
    are equal, [get_lowest_market_buy_price] returns the estimate that
    is strictly below all the others, with the exchange it came from. *)
Theorem lowest_price_is_minimum exchanges symbol0 amount s prices s' :
  exchanges ≠ [] →
  gather (map (λ exchange, get_estimated_market_buy_price exchange symbol0 amount)
              exchanges) s = (inr prices, s') →
  (∀ i j p q, prices !! i = Some p → prices !! j = Some q → p == q → i = j) →
  ∃ i best_price best_exchange,
    get_lowest_market_buy_price exchanges symbol0 amount s
    = (inr (best_price, best_exchange), s')
    ∧ prices !! i = Some best_price
    ∧ exchanges !! i = Some best_exchange
    ∧ ∀ j p, prices !! j = Some p → j ≠ i → best_price < p.
Proof.
  intros Hne Hgather Hdistinct.
  pose proof (gather_length _ _ _ _ Hgather) as Hlen. rewrite length_map in Hlen.
  set (items := zip prices exchanges).
  assert (distinct_prices items) as Hd.
  { intros i j a b Hi Hj Heq. subst items.
    apply lookup_zip_with_Some in Hi as (p & e & -> & Hp & _).
    apply lookup_zip_with_Some in Hj as (q & e' & -> & Hq & _).
    by apply (Hdistinct i j p q). }
  destruct (push_all_root items items []) as (heap & Hpush & Hperm & Hroot);
    [done | constructor | by apply Forall_forall | by left |].
  simpl in Hperm.
  destruct Hroot as [-> | (r & Hr0 & Hmin)].
  { apply Permutation_nil_l in Hperm. subst items.
    destruct prices, exchanges; simplify_eq/=. }
  destruct heap as [|r' heap]; [done |]. injection Hr0 as ->.
  assert (Forall (λ x, x ∈ items) (r :: heap)) as Hall.
  { apply Forall_forall. intros x Hx. by rewrite <- Hperm. }
  destruct (heappop_root tuple_lt (λ x, x ∈ items)) with (r := r) (heap := heap)
    as (heap' & Hpop); [intros; by eapply tuple_lt_defined | done |].
  assert (r ∈ items) as Hr by (by apply Forall_cons in Hall as [? _]).
  apply list_elem_of_lookup in Hr as [i Hi].
  pose proof Hi as Hi'. subst items.
  apply lookup_zip_with_Some in Hi' as (best_price & best_exchange & -> & Hp & He).
  exists i, best_price, best_exchange. split_and!; [| done | done |].
  - unfold get_lowest_market_buy_price, mbind, M_bind, lift, mret, M_ret.
    rewrite Hgather, Hpush, Hpop. reflexivity.
  - intros j p Hj Hji.
    destruct (lookup_lt_is_Some_2 exchanges j) as [e Hej].
    { rewrite <- Hlen. by eapply lookup_lt_Some. }
    assert (zip prices exchanges !! j = Some (p, e)) as Hitem.
    { apply lookup_zip_with_Some. by exists p, e. }
    assert ((p, e) ∈ zip prices exchanges) as Hin by (by eapply list_elem_of_lookup_2).
    assert (best_price <= p) as Hle.
    { apply (not_after_price (zip prices exchanges) (best_price, best_exchange) (p, e));
        [done | by eapply list_elem_of_lookup_2 | done |].
      apply Hmin. by rewrite Hperm. }
    destruct (Qeq_dec best_price p) as [Heq|Hneq].
    + destruct Hji. symmetry. by apply (Hdistinct i j best_price p).
    + apply Qle_lteq in Hle as [? | ?]; done.
Qed.

Lemma lowest_price_is_minimum_witness :
  ∃ i best_price best_exchange,
    get_lowest_market_buy_price [binance_double; kraken_double] "ADAEUR" 100 ∅
    = (inr (best_price, best_exchange),
       (gather (map (λ exchange, get_estimated_market_buy_price exchange "ADAEUR" 100)
                    [binance_double; kraken_double]) ∅).2)
    ∧ [0.5481 * 100 / 100; 0.55 * 100 / 100] !! i = Some best_price
    ∧ [binance_double; kraken_double] !! i = Some best_exchange
    ∧ ∀ j p, [0.5481 * 100 / 100; 0.55 * 100 / 100] !! j = Some p → j ≠ i → best_price < p.
Proof.
  apply (lowest_price_is_minimum [binance_double; kraken_double] "ADAEUR" 100 ∅).
  - discriminate.
  - reflexivity.
  - intros [|[|i]] [|[|j]] p q Hp Hq Heq; simpl in Hp, Hq; try discriminate;
      try reflexivity; injection Hp as <-; injection Hq as <-; discriminate Heq.
Defined.

(** Two distinct exchange instances with equal estimates: the second
    [heappush] compares the two tuples, the prices tie, and the
    comparison of the exchanges raises TypeError. *)
Lemma tied_pair_raises_TypeError a b symbol0 amount s p q s' :
  gather (map (λ exchange, get_estimated_market_buy_price exchange symbol0 amount)
              [a; b]) s = (inr [p; q], s') →
  p == q → obj_id a ≠ obj_id b →
  get_lowest_market_buy_price [a; b] symbol0 amount s = (inl TypeError, s').
Proof.
  intros Hgather Heq Hid.
  unfold get_lowest_market_buy_price, mbind, M_bind, lift. rewrite Hgather.
  assert (push_all [] (zip [p; q] [a; b]) = inl TypeError) as ->; [| reflexivity].
  cbn [zip zip_with push_all].
  rewrite heappush_empty. cbn [mbind result_bind].
  rewrite heappush_singleton. unfold tuple_lt. cbn [fst snd].
  rewrite (proj2 (Qeq_bool_iff q p)) by (by symmetry).
  rewrite bool_decide_eq_false_2 by congruence. reflexivity.
Qed.

(** C9 (the code fails the claim): with two registered exchanges whose
    estimates tie at the minimum, here 0.55 on both,
    [get_lowest_market_buy_price] does not return one of them: the
    tuple comparison inside [heapq.heappush] raises TypeError. *)
Theorem tied_estimates_raise_TypeError :
  (gather (map (λ exchange, get_estimated_market_buy_price exchange "ADAEUR" 100)
               [kraken_double; tied_double]) ∅).1
  = inr [0.55 * 100 / 100; 0.55 * 100 / 100]
  ∧ (get_lowest_market_buy_price [kraken_double; tied_double] "ADAEUR" 100 ∅).1
    = inl TypeError.
Proof. split; reflexivity. Qed.
End lowest.

(** * Further properties of the embedded code *)

(** ** Retries of [_send] *)

Lemma send_attempts_success session_send response :
  ∀ remaining attempt n : nat,
    (n ≤ remaining)%nat →
    (∀ k : nat, k < n → ∃ e, session_send (attempt + k) = inl e) →
    session_send (attempt + n) = inr response →
    send_attempts session_send attempt remaining = inr response.
Proof.
  induction remaining as [|remaining IH]; intros attempt n Hn Hfail Hok.
  - assert (n = 0) as -> by lia. rewrite Nat.add_0_r in Hok. simpl. by rewrite Hok.
  - destruct n as [|n].
    + rewrite Nat.add_0_r in Hok. simpl. by rewrite Hok.
    + simpl. destruct (Hfail 0 ltac:(lia)) as [e He]. rewrite Nat.add_0_r in He.
      rewrite He. apply (IH (S attempt) n); [lia | |].
      * intros k Hk. destruct (Hfail (S k) ltac:(lia)) as [e' He'].
        exists e'. by rewrite <- He', Nat.add_succ_comm.
      * by rewrite <- Hok, Nat.add_succ_comm.
Qed.

Lemma send_attempts_exhausted session_send :
  ∀ remaining attempt : nat,
    (∀ k : nat, (k ≤ remaining)%nat → ∃ e, session_send (attempt + k) = inl e) →
    ∃ e, session_send (attempt + remaining) = inl e
         ∧ send_attempts session_send attempt remaining = inl (RetryError e).
Proof.
  induction remaining as [|remaining IH]; intros attempt Hfail.
  - destruct (Hfail 0 ltac:(lia)) as [e He]. exists e. split; [done |].
    rewrite Nat.add_0_r in He. simpl. by rewrite He.
  - destruct (Hfail 0 ltac:(lia)) as [e He]. rewrite Nat.add_0_r in He.
    destruct (IH (S attempt)) as (e' & He' & Hrun).
    + intros k Hk. destruct (Hfail (S k) ltac:(lia)) as [e'' He''].
      exists e''. by rewrite <- He'', Nat.add_succ_comm.
    + exists e'. split; [by rewrite <- He', Nat.add_succ_comm |].
      simpl. by rewrite He.
Qed.

(** X1: when one of the first five calls of [Session().send] returns a
    response and every earlier call raised, [_send] returns that
    response, whatever the exceptions raised before were. *)
Theorem _send_returns_first_response session_send (n : nat) response :
  n < 5 →
  (∀ k : nat, k < n → ∃ e, session_send k = inl e) →
  session_send n = inr response →
  _send session_send = inr response.
Proof.
  intros Hn Hfail Hok. unfold _send.
  apply (send_attempts_success session_send response 4 0 n); [lia | done | done].
Qed.

Lemma _send_returns_first_response_witness :
  _send (flaky_session 2) = inr empty_object_response.
Proof.
  apply (_send_returns_first_response (flaky_session 2) 2 empty_object_response).
  - lia.
  - intros k Hk. exists (RuntimeError "connection refused").
    unfold flaky_session. by rewrite decide_True.
  - reflexivity.
Defined.

(** X2: when the first five calls all raise, [_send] gives up with a
    RetryError that holds the exception of the fifth call; a sixth call
    is never made. *)
Theorem _send_gives_up_after_five session_send :
  (∀ k : nat, k < 5 → ∃ e, session_send k = inl e) →
  ∃ e, session_send 4 = inl e ∧ _send session_send = inl (RetryError e).
Proof.
  intros Hfail. unfold _send.
  apply (send_attempts_exhausted session_send 4 0).
  intros k Hk. apply Hfail. lia.
Qed.

Lemma _send_gives_up_after_five_witness :
  ∃ e, flaky_session 7 4 = inl e ∧ _send (flaky_session 7) = inl (RetryError e).
Proof.
  apply (_send_gives_up_after_five (flaky_session 7)).
  intros k Hk. exists (RuntimeError "connection refused").
  unfold flaky_session. rewrite decide_True; [done | lia].
Defined.

(** ** What [send_request] and the Kraken dispatch let through *)

(** X3: [send_request] returns a payload only for a response with status
    200: then it is the value of the callback when there is one, the
    JSON body otherwise.  Any other status, 2xx codes such as 201 or 204
    included, raises. *)
Theorem send_request_returns_only_200 session_send callback response j :
  _send session_send = inr response →
  send_request session_send callback = inr j →
  status_code response = 200%Z
  ∧ match callback with
    | Some cb => cb response = inr j
    | None => json_body response = Some j
    end.
Proof.
  intros Hsend Hret. unfold send_request in Hret. rewrite Hsend in Hret.
  cbn [mbind result_bind] in Hret. case_bool_decide as Hcode; [discriminate |].
  split; [by destruct (decide (status_code response = 200%Z)) |].
  destruct callback as [cb|]; [done |].
  unfold response_json_of in Hret.
  destruct (json_body response) as [j'|]; [by injection Hret as -> | discriminate].
Qed.

Lemma send_request_returns_only_200_witness :
  status_code unmapped_error_response = 200%Z
  ∧ json_body unmapped_error_response = Some (JObject unmapped_error_payload).
Proof.
  apply (send_request_returns_only_200 (λ _, inr unmapped_error_response) None
           unmapped_error_response (JObject unmapped_error_payload)).
  - reflexivity.
  - reflexivity.
Defined.

Lemma handle_response_returns response j :
  handle_response response = inr j →
  json_body response = Some j ∧ py_contains "result" j = inr true.
Proof.
  unfold handle_response, response_json_of.
  destruct (json_body response) as [body|]; [| discriminate].
  cbn [mbind result_bind].
  destruct (py_contains "result" body) as [|[]] eqn:Hresult; cbn [mbind result_bind negb];
    [discriminate | | discriminate].
  destruct (py_contains "error" body) as [|[]]; cbn [mbind result_bind]; [discriminate | |].
  - destruct (py_getitem body "error") as [|error]; cbn [mbind result_bind]; [discriminate |].
    destruct (in_error_mapping error) as [|[]]; cbn [mbind result_bind]; [discriminate | |].
    + destruct error; try discriminate.
      destruct (error_mapping !! s); discriminate.
    + by intros [= <-].
  - by intros [= <-].
Qed.

Lemma handle_response_no_mapped_error response payload error :
  handle_response response = inr (JObject payload) →
  payload !! "error" = Some (JString error) →
  kraken_exception error = None.
Proof.
  intros Hret Herror.
  destruct (handle_response_returns _ _ Hret) as [Hbody _].
  unfold handle_response, response_json_of in Hret. rewrite Hbody in Hret.
  cbn [mbind result_bind py_contains py_getitem] in Hret.
  rewrite !bool_decide_is_Some, Herror in Hret.
  destruct (payload !! "result"); cbn [negb mbind result_bind in_error_mapping] in Hret;
    [| discriminate].
  rewrite bool_decide_is_Some in Hret. rewrite <- error_mapping_lookup.
  destruct (error_mapping !! error); [discriminate | reflexivity].
Qed.

(** X4: a payload that a Kraken Futures request returns to its caller
    comes from a response with status 200, has a [result] key, and
    carries none of the error codes of the mapping. *)
Theorem kraken_make_request_payload session_send payload :
  kraken_make_request session_send = inr (JObject payload) →
  ∃ response,
    _send session_send = inr response
    ∧ status_code response = 200%Z
    ∧ json_body response = Some (JObject payload)
    ∧ is_Some (payload !! "result")
    ∧ ∀ error, payload !! "error" = Some (JString error) → kraken_exception error = None.
Proof.
  intros Hret. unfold kraken_make_request in Hret.
  destruct (_send session_send) as [e|response] eqn:Hsend.
  { unfold send_request in Hret. rewrite Hsend in Hret. discriminate. }
  exists response. split; [done |].
  unfold send_request in Hret. rewrite Hsend in Hret. cbn [mbind result_bind] in Hret.
  case_bool_decide as Hcode; [discriminate |].
  split; [by destruct (decide (status_code response = 200%Z)) |].
  destruct (handle_response_returns _ _ Hret) as [Hbody Hresult].
  split; [done |]. split.
  - cbn [py_contains] in Hresult. injection Hresult as Hresult.
    by apply bool_decide_eq_true in Hresult.
  - intros error. by apply (handle_response_no_mapped_error response).
Qed.

Lemma kraken_make_request_payload_witness :
  ∃ response,
    _send (λ _, inr unmapped_error_response) = inr response
    ∧ status_code response = 200%Z
    ∧ json_body response = Some (JObject unmapped_error_payload)
    ∧ is_Some (unmapped_error_payload !! "result")
    ∧ ∀ error, unmapped_error_payload !! "error" = Some (JString error) →
               kraken_exception error = None.
Proof.
  apply (kraken_make_request_payload (λ _, inr unmapped_error_response)
           unmapped_error_payload).
  reflexivity.
Defined.

(** ** Average prices *)

Section prices.
Local Open Scope Q_scope.






End prices.

(** ** Estimates over an ascending book *)

Section estimates.
Local Open Scope Q_scope.


Lemma total_quantity_nonneg asks0 :
  Forall (λ ask, 0 < quantity ask) asks0 → 0 <= total_quantity asks0.
Proof. induction 1; unfold total_quantity in *; simpl; lra. Qed.





End estimates.

(** ** Estimates and order sizes *)

Section sizes.
Local Open Scope Q_scope.







End sizes.

(** ** Estimates through the adapters *)

Lemma get_pair_from_unmatched pairs0 name0 symbol0 :
  Forall (λ q, symbol q ≠ symbol0 ∧ base q +:+ quote q ≠ symbol0) pairs0 →
  get_pair_from pairs0 name0 symbol0
  = inl (ExchangePairDoesNotExistError
           ("Trading pair '" +:+ symbol0 +:+ "' not found on '" +:+ name0 +:+ "'")).
Proof.
  induction 1 as [|p rest Hp _ IH].
  - cbn [get_pair_from]. unfold mk_ExchangePairDoesNotExistError, DocDefaultException.
    case_decide as Hempty; [| reflexivity]. simpl in Hempty. discriminate Hempty.
  - cbn [get_pair_from]. by rewrite (proj2 (pair_matches_false _ _) Hp).
Qed.

Lemma get_pair_from_matched pairs0 name0 symbol0 p :
  p ∈ pairs0 → symbol p = symbol0 ∨ base p +:+ quote p = symbol0 →
  ∃ p', get_pair_from pairs0 name0 symbol0 = inr p'
        ∧ p' ∈ pairs0
        ∧ (symbol p' = symbol0 ∨ base p' +:+ quote p' = symbol0).
Proof.
  intros Hin Hp. induction pairs0 as [|q rest IH]; [by apply elem_of_nil in Hin |].
  cbn [get_pair_from]. destruct (pair_matches symbol0 q) eqn:Hq.
  - exists q. split; [done |]. split; [apply elem_of_cons; by left | by apply pair_matches_true].
  - apply elem_of_cons in Hin as [-> | Hin].
    + apply pair_matches_true in Hp. congruence.
    + destruct (IH Hin) as (p' & ? & ? & ?). exists p'.
      split; [done |]. split; [apply elem_of_cons; by right | done].
Qed.

(** The estimate through an adapter, step by step. *)
Lemma adapter_estimate_run id name0 pairs0 orders_resp pair0 order_size (s : gmap nat OrderBook) :
  get_estimated_market_buy_price (adapter id name0 pairs0 orders_resp) pair0 order_size s
  = match get_pair_from pairs0 name0 pair0 with
    | inl e => (inl e, s)
    | inr p =>
        match orders_resp (symbol p) with
        | inl e => (inl e, s)
        | inr (bids0, asks0) =>
            walk_order_book (fresh (dom s)) order_size
              (<[fresh (dom s) :=
                   {| bids := map (λ '(p, q), {| price := p; quantity := q |}) bids0;
                      asks := map (λ '(p, q), {| price := p; quantity := q |}) asks0 |}]> s)
        end
    end.
Proof.
  unfold get_estimated_market_buy_price, mbind, M_bind. cbn [get_order_book adapter].
  unfold adapter_get_order_book.
  destruct (get_pair_from pairs0 name0 pair0) as [e|p]; [reflexivity |].
  destruct (orders_resp (symbol p)) as [e|[bids0 asks0]]; reflexivity.
Qed.

(** X10: for an identifier that no pair of the directory matches, the
    estimate through an adapter raises ExchangePairDoesNotExistError,
    whatever the venue would answer, and no order book is built. *)
Theorem adapter_estimate_unknown_pair id name0 pairs0 orders_resp pair0 order_size
    (s : gmap nat OrderBook) :
  Forall (λ q, symbol q ≠ pair0 ∧ base q +:+ quote q ≠ pair0) pairs0 →
  get_estimated_market_buy_price (adapter id name0 pairs0 orders_resp) pair0 order_size s
  = (inl (ExchangePairDoesNotExistError
            ("Trading pair '" +:+ pair0 +:+ "' not found on '" +:+ name0 +:+ "'")), s).
Proof.
  intros Hunmatched. rewrite adapter_estimate_run.
  by rewrite (get_pair_from_unmatched _ _ _ Hunmatched).
Qed.

Lemma adapter_estimate_unknown_pair_witness :
  get_estimated_market_buy_price binance_double "DOGEUSD" 100 ∅
  = (inl (ExchangePairDoesNotExistError "Trading pair 'DOGEUSD' not found on 'Binance'"), ∅).
Proof.
  apply (adapter_estimate_unknown_pair 1 "Binance" binance_pairs
           (λ _, inr ([(0.5475, 5751)], [(0.5481, 822); (0.5482, 876)])%Q) "DOGEUSD" 100 ∅).
  repeat constructor; discriminate.
Defined.

(** X11: an estimate through an adapter leaves every order book that
    existed before the call as it was: the walk pops the levels of the
    book built for this call only. *)
Theorem adapter_estimate_frame id name0 pairs0 orders_resp pair0 order_size
    (s : gmap nat OrderBook) order_book b :
  s !! order_book = Some b →
  (get_estimated_market_buy_price (adapter id name0 pairs0 orders_resp) pair0 order_size s).2
    !! order_book = Some b.
Proof.
  intros Hb. rewrite adapter_estimate_run.
  destruct (get_pair_from pairs0 name0 pair0) as [e|p]; [done |].
  destruct (orders_resp (symbol p)) as [e|[bids0 asks0]]; [done |].
  assert (fresh (dom s) ≠ order_book) as Hfresh.
  { intros Heq. apply (is_fresh (dom s)). rewrite Heq. apply elem_of_dom. eauto. }
  erewrite walk_order_book_run by apply lookup_insert_eq.
  cbn [asks bids].
  destruct (walk_asks _ order_size []) as [[rest remaining] fills].
  cbv zeta. rewrite insert_insert_eq.
  destruct (Qgtb remaining 0); cbn [snd]; by rewrite lookup_insert_ne.
Qed.

Lemma adapter_estimate_frame_witness :
  (get_estimated_market_buy_price binance_double "ADAEUR" 1000 {[ 0%nat := adaeur_book ]}).2
    !! 0%nat = Some adaeur_book.
Proof.
  apply (adapter_estimate_frame 1 "Binance" binance_pairs
           (λ _, inr ([(0.5475, 5751)], [(0.5481, 822); (0.5482, 876)])%Q)
           "ADAEUR" 1000 {[ 0%nat := adaeur_book ]} 0%nat adaeur_book).
  reflexivity.
Defined.

(** X12: the result of an estimate through an adapter does not depend on
    the objects of the store: asked again, in any state, the adapter
    builds a new book and the call returns the same price or raises the
    same exception. *)
Theorem adapter_estimate_repeatable id name0 pairs0 orders_resp pair0 order_size
    (s s' : gmap nat OrderBook) :
  (get_estimated_market_buy_price (adapter id name0 pairs0 orders_resp) pair0 order_size s).1
  = (get_estimated_market_buy_price (adapter id name0 pairs0 orders_resp) pair0 order_size s').1.
Proof.
  rewrite !adapter_estimate_run.
  destruct (get_pair_from pairs0 name0 pair0) as [e|p]; [done |].
  destruct (orders_resp (symbol p)) as [e|[bids0 asks0]]; [done |].
  erewrite !walk_order_book_run by apply lookup_insert_eq.
  cbn [asks bids].
  destruct (walk_asks _ order_size []) as [[rest remaining] fills].
  cbv zeta. by destruct (Qgtb remaining 0).
Qed.

(** ** Loading the pair directories *)

Lemma binance_load_loop_acc usd_stablecoin symbols pairs0 :
  binance_load_loop usd_stablecoin symbols pairs0
  = match binance_load_loop usd_stablecoin symbols [] with
    | inl e => inl e
    | inr loaded => inr (pairs0 ++ loaded)
    end.
Proof.
  revert pairs0. induction symbols as [|entry rest IH]; intros pairs0.
  - simpl. by rewrite app_nil_r.
  - cbn [binance_load_loop]. unfold entry_getitem.
    destruct (entry !! "baseAsset") as [b|]; [| reflexivity].
    destruct (entry !! "quoteAsset") as [q|]; [| reflexivity].
    destruct (entry !! "symbol") as [n|]; [| reflexivity].
    cbn [mbind result_bind]. cbv zeta.
    destruct (_ && _).
    + rewrite (IH ((pairs0 ++ _) ++ _)), (IH (([] ++ _) ++ _)).
      destruct (binance_load_loop usd_stablecoin rest []) as [e|loaded]; [reflexivity |].
      f_equal. simpl. by rewrite <- !app_assoc.
    + rewrite (IH (pairs0 ++ _)), (IH ([] ++ _)).
      destruct (binance_load_loop usd_stablecoin rest []) as [e|loaded]; [reflexivity |].
      f_equal. simpl. by rewrite <- !app_assoc.
Qed.

(** One turn of the loop on an entry that has the three keys. *)
Lemma binance_load_cons usd_stablecoin entry rest b q n :
  entry !! "baseAsset" = Some b → entry !! "quoteAsset" = Some q →
  entry !! "symbol" = Some n →
  binance_load_exchange_pairs usd_stablecoin (entry :: rest)
  = match binance_load_exchange_pairs usd_stablecoin rest with
    | inl e => inl e
    | inr loaded =>
        inr ({| base := b; quote := q; symbol := n |}
             :: (if bool_decide (q = usd_stablecoin) && negb (bool_decide (q = "USD"))
                 then [{| base := b; quote := "USD"; symbol := n |}] else [])
             ++ loaded)
    end.
Proof.
  intros Hb Hq Hn. unfold binance_load_exchange_pairs.
  cbn [binance_load_loop]. unfold entry_getitem. rewrite Hb, Hq, Hn.
  cbn [mbind result_bind]. cbv zeta. rewrite binance_load_loop_acc.
  destruct (binance_load_loop usd_stablecoin rest []) as [e|loaded]; [reflexivity |].
  f_equal. by destruct (_ && _).
Qed.

Lemma binance_load_inv usd_stablecoin entry rest pairs0 :
  binance_load_exchange_pairs usd_stablecoin (entry :: rest) = inr pairs0 →
  ∃ b q n loaded,
    entry !! "baseAsset" = Some b ∧ entry !! "quoteAsset" = Some q
    ∧ entry !! "symbol" = Some n
    ∧ binance_load_exchange_pairs usd_stablecoin rest = inr loaded
    ∧ pairs0 = {| base := b; quote := q; symbol := n |}
               :: (if bool_decide (q = usd_stablecoin) && negb (bool_decide (q = "USD"))
                   then [{| base := b; quote := "USD"; symbol := n |}] else [])
               ++ loaded.
Proof.
  intros Hload.
  destruct (entry !! "baseAsset") as [b|] eqn:Hb;
    [| unfold binance_load_exchange_pairs in Hload; cbn [binance_load_loop] in Hload;
       unfold entry_getitem in Hload; rewrite Hb in Hload; discriminate].
  destruct (entry !! "quoteAsset") as [q|] eqn:Hq;
    [| unfold binance_load_exchange_pairs in Hload; cbn [binance_load_loop] in Hload;
       unfold entry_getitem in Hload; rewrite Hb, Hq in Hload; discriminate].
  destruct (entry !! "symbol") as [n|] eqn:Hn;
    [| unfold binance_load_exchange_pairs in Hload; cbn [binance_load_loop] in Hload;
       unfold entry_getitem in Hload; rewrite Hb, Hq, Hn in Hload; discriminate].
  rewrite (binance_load_cons _ _ _ _ _ _ Hb Hq Hn) in Hload.
  destruct (binance_load_exchange_pairs usd_stablecoin rest) as [e|loaded]; [discriminate |].
  injection Hload as <-. by exists b, q, n, loaded.
Qed.

(** X13: when [Binance.load_exchange_pairs] returns, every market the
    venue lists is a pair of the directory, and every pair of the
    directory is a listed market, under its own quote or, for a market
    quoted in the stablecoin, under USD. *)
Theorem binance_load_lists_the_markets usd_stablecoin symbols pairs0 :
  binance_load_exchange_pairs usd_stablecoin symbols = inr pairs0 →
  (∀ entry, entry ∈ symbols →
     ∃ b q n, entry !! "baseAsset" = Some b ∧ entry !! "quoteAsset" = Some q
              ∧ entry !! "symbol" = Some n
              ∧ {| base := b; quote := q; symbol := n |} ∈ pairs0)
  ∧ (∀ p, p ∈ pairs0 →
       ∃ entry, entry ∈ symbols
                ∧ entry !! "baseAsset" = Some (base p)
                ∧ entry !! "symbol" = Some (symbol p)
                ∧ (entry !! "quoteAsset" = Some (quote p)
                   ∨ (quote p = "USD" ∧ entry !! "quoteAsset" = Some usd_stablecoin))).
Proof.
  revert pairs0. induction symbols as [|entry rest IH]; intros pairs0 Hload.
  - injection Hload as <-. split; intros ? Hin; by apply elem_of_nil in Hin.
  - apply binance_load_inv in Hload as (b & q & n & loaded & Hb & Hq & Hn & Hrest & ->).
    destruct (IH loaded Hrest) as [IHin IHout]. split.
    + intros entry' [-> | Hin]%elem_of_cons.
      * exists b, q, n. split_and!; [done .. |]. apply elem_of_cons. by left.
      * destruct (IHin entry' Hin) as (b' & q' & n' & ? & ? & ? & Hp).
        exists b', q', n'. split_and!; [done .. |].
        apply elem_of_cons. right. apply elem_of_app. by right.
    + intros p [-> | [Halias | Hin]%elem_of_app]%elem_of_cons.
      * exists entry. split_and!; [apply elem_of_cons; by left | done | done | by left].
      * destruct (_ && _) eqn:Htest; [| by apply elem_of_nil in Halias].
        apply list_elem_of_singleton in Halias as ->.
        apply andb_true_iff in Htest as [Hstable%bool_decide_eq_true _].
        exists entry. split_and!; [apply elem_of_cons; by left | done | done |].
        right. split; [done |]. by rewrite <- Hstable.
      * destruct (IHout p Hin) as (entry' & ? & ? & ? & ?).
        exists entry'. split_and!; [apply elem_of_cons; by right | done ..].
Qed.

Lemma binance_load_lists_the_markets_witness :
  (∀ entry, entry ∈ binance_symbols →
     ∃ b q n, entry !! "baseAsset" = Some b ∧ entry !! "quoteAsset" = Some q
              ∧ entry !! "symbol" = Some n
              ∧ {| base := b; quote := q; symbol := n |} ∈ binance_pairs)
  ∧ (∀ p, p ∈ binance_pairs →
       ∃ entry, entry ∈ binance_symbols
                ∧ entry !! "baseAsset" = Some (base p)
                ∧ entry !! "symbol" = Some (symbol p)
                ∧ (entry !! "quoteAsset" = Some (quote p)
                   ∨ (quote p = "USD" ∧ entry !! "quoteAsset" = Some "USDT"))).
Proof.
  apply (binance_load_lists_the_markets "USDT" binance_symbols binance_pairs).
  reflexivity.
Defined.

(** X14: with a stablecoin other than USD configured, a market the venue
    quotes in that stablecoin is found under its base followed by USD. *)
Theorem binance_usd_alias_resolves usd_stablecoin symbols pairs0 name0 entry b n :
  binance_load_exchange_pairs usd_stablecoin symbols = inr pairs0 →
  entry ∈ symbols →
  entry !! "baseAsset" = Some b → entry !! "quoteAsset" = Some usd_stablecoin →
  entry !! "symbol" = Some n →
  usd_stablecoin ≠ "USD" →
  ∃ p, get_pair_from pairs0 name0 (b +:+ "USD") = inr p
       ∧ p ∈ pairs0
       ∧ (symbol p = b +:+ "USD" ∨ base p +:+ quote p = b +:+ "USD").
Proof.
  intros Hload Hin Hb Hq Hn Hstable.
  apply (get_pair_from_matched _ _ _ {| base := b; quote := "USD"; symbol := n |});
    [| by right].
  revert pairs0 Hload. induction symbols as [|entry' rest IH]; intros pairs0 Hload;
    [by apply elem_of_nil in Hin |].
  apply binance_load_inv in Hload as (b' & q' & n' & loaded & Hb' & Hq' & Hn' & Hrest & ->).
  apply elem_of_cons in Hin as [<- | Hin].
  - rewrite Hb in Hb'. rewrite Hq in Hq'. rewrite Hn in Hn'.
    injection Hb' as <-. injection Hq' as <-. injection Hn' as <-.
    rewrite bool_decide_eq_true_2, bool_decide_eq_false_2 by done.
    apply elem_of_cons. right. apply elem_of_cons. by left.
  - apply elem_of_cons. right. apply elem_of_app. right. by apply IH.
Qed.

Lemma binance_usd_alias_resolves_witness :
  ∃ p, get_pair_from binance_pairs "Binance" ("BTC" +:+ "USD") = inr p
       ∧ p ∈ binance_pairs
       ∧ (symbol p = "BTC" +:+ "USD" ∨ base p +:+ quote p = "BTC" +:+ "USD").
Proof.
  apply (binance_usd_alias_resolves "USDT" binance_symbols binance_pairs "Binance"
           {[ "baseAsset" := "BTC"; "quoteAsset" := "USDT"; "symbol" := "BTCUSDT" ]}
           "BTC" "BTCUSDT").
  - reflexivity.
  - apply elem_of_cons. by left.
  - reflexivity.
  - reflexivity.
  - reflexivity.
  - discriminate.
Defined.

(** X15: an entry that lacks one of the keys read aborts the load with
    the KeyError of the first key missing, whatever the entries before
    it gave; no directory is returned. *)
Theorem binance_load_missing_key usd_stablecoin good bad rest key :
  Forall (λ entry, binance_missing_key entry = None) good →
  binance_missing_key bad = Some key →
  binance_load_exchange_pairs usd_stablecoin (good ++ bad :: rest) = inl (KeyError key).
Proof.
  intros Hgood Hbad. unfold binance_load_exchange_pairs. generalize (@nil Pair) as pairs0.
  induction Hgood as [|entry good Hentry _ IH]; intros pairs0.
  - cbn [app binance_load_loop]. unfold binance_missing_key in Hbad. unfold entry_getitem.
    destruct (bad !! "baseAsset"); [| by injection Hbad as <-].
    destruct (bad !! "quoteAsset"); [| by injection Hbad as <-].
    destruct (bad !! "symbol"); [discriminate | by injection Hbad as <-].
  - cbn [app binance_load_loop]. unfold binance_missing_key in Hentry. unfold entry_getitem.
    destruct (entry !! "baseAsset"); [| discriminate].
    destruct (entry !! "quoteAsset"); [| discriminate].
    destruct (entry !! "symbol"); [| discriminate].
    cbn [mbind result_bind]. cbv zeta. apply IH.
Qed.

Lemma binance_load_missing_key_witness :
  binance_load_exchange_pairs "USDT"
    (binance_symbols ++ {[ "baseAsset" := "ETH"; "symbol" := "ETHBTC" ]} :: [])
  = inl (KeyError "quoteAsset").
Proof.
  apply (binance_load_missing_key "USDT" binance_symbols
           {[ "baseAsset" := "ETH"; "symbol" := "ETHBTC" ]} [] "quoteAsset").
  - repeat constructor.
  - reflexivity.
Defined.

(** [KrakenFutures.load_exchange_pairs]: the pairs loaded so far stay,
    in their order, at the front of the directory. *)
Lemma kraken_load_loop_acc tickers pairs0 :
  kraken_load_loop tickers pairs0
  = match kraken_load_loop tickers [] with
    | inl e => inl e
    | inr loaded => inr (pairs0 ++ loaded)
    end.
Proof.
  revert pairs0. induction tickers as [|ticker rest IH]; intros pairs0.
  - simpl. by rewrite app_nil_r.
  - cbn [kraken_load_loop].
    destruct (if bool_decide (ticker !! "tag" = Some "perpetual") then _ else _)
      as [e|[]]; cbn [mbind outcome_bind negb]; [reflexivity | | apply IH].
    destruct (ticker !! "pair") as [pair0|]; [| reflexivity].
    destruct (split_on ":" pair0) as [|base0 [|quote0 [|]]]; try reflexivity.
    destruct (ticker !! "symbol") as [native|]; [| reflexivity].
    cbv zeta. destruct (bool_decide (base0 = "XBT")).
    + rewrite (IH ((pairs0 ++ _) ++ _)), (IH (([] ++ _) ++ _)).
      destruct (kraken_load_loop rest []) as [e|loaded]; [reflexivity |].
      f_equal. simpl. by rewrite <- !app_assoc.
    + rewrite (IH (pairs0 ++ _)), (IH ([] ++ _)).
      destruct (kraken_load_loop rest []) as [e|loaded]; [reflexivity |].
      f_equal. simpl. by rewrite <- !app_assoc.
Qed.

(** What one ticker contributes when the load goes on. *)
Lemma kraken_load_inv ticker rest pairs0 :
  kraken_load_exchange_pairs (ticker :: rest) = inr pairs0 →
  ∃ loaded,
    kraken_load_exchange_pairs rest = inr loaded
    ∧ ((pairs0 = loaded
        ∧ (ticker !! "tag" ≠ Some "perpetual"
           ∨ ∃ native, ticker !! "symbol" = Some native
                       ∧ String.prefix "PF_" native = false))
       ∨ ∃ native pair0 base0 quote0,
           ticker !! "tag" = Some "perpetual"
           ∧ ticker !! "symbol" = Some native ∧ String.prefix "PF_" native = true
           ∧ ticker !! "pair" = Some pair0 ∧ split_on ":" pair0 = [base0; quote0]
           ∧ pairs0 = {| base := base0; quote := quote0; symbol := native |}
                      :: (if bool_decide (base0 = "XBT")
                          then [{| base := "BTC"; quote := quote0; symbol := native |}]
                          else [])
                      ++ loaded).
Proof.
  unfold kraken_load_exchange_pairs. cbn [kraken_load_loop]. intros Hload.
  case_bool_decide as Htag.
  - destruct (ticker !! "symbol") as [native|] eqn:Hnative; [| discriminate].
    cbn [mbind outcome_bind] in Hload.
    destruct (String.prefix "PF_" native) eqn:Hprefix; cbn [negb] in Hload.
    + destruct (ticker !! "pair") as [pair0|] eqn:Hpair; [| discriminate].
      destruct (split_on ":" pair0) as [|base0 [|quote0 [|]]] eqn:Hsplit; try discriminate.
      cbv zeta in Hload. rewrite kraken_load_loop_acc in Hload.
      destruct (kraken_load_loop rest []) as [e|loaded]; [discriminate |].
      injection Hload as <-. exists loaded. split; [done |]. right.
      exists native, pair0, base0, quote0. split_and!; [done .. |].
      by destruct (bool_decide (base0 = "XBT")).
    + exists pairs0. split; [done |]. left. split; [done |]. right. by exists native.
  - cbn [mbind outcome_bind negb] in Hload.
    exists pairs0. split; [done |]. left. split; [done |]. by left.
Qed.

(** X16: in the directory that [KrakenFutures.load_exchange_pairs]
    returns, every native symbol starts with PF_, and every pair whose
    base is XBT has a twin with base BTC, the same quote and the same
    native symbol. *)
Theorem kraken_load_directory tickers pairs0 :
  kraken_load_exchange_pairs tickers = inr pairs0 →
  Forall (λ p, String.prefix "PF_" (symbol p) = true) pairs0
  ∧ ∀ p, p ∈ pairs0 → base p = "XBT" →
         {| base := "BTC"; quote := quote p; symbol := symbol p |} ∈ pairs0.
Proof.
  revert pairs0. induction tickers as [|ticker rest IH]; intros pairs0 Hload.
  - injection Hload as <-. split; [constructor |].
    intros p Hin. by apply elem_of_nil in Hin.
  - apply kraken_load_inv in Hload as (loaded & Hrest & Hcase).
    destruct (IH loaded Hrest) as [IHprefix IHtwin].
    destruct Hcase as [[-> _] | (native & pair0 & base0 & quote0 & _ & _ & Hprefix & _ & _ & ->)];
      [done |].
    split.
    + constructor; [done |]. apply Forall_app. split; [| done].
      destruct (bool_decide (base0 = "XBT")); by repeat constructor.
    + intros p [-> | [Halias | Hin]%elem_of_app]%elem_of_cons Hbase.
      * cbn [base quote symbol] in *. rewrite bool_decide_eq_true_2 by done.
        apply elem_of_cons. right. apply elem_of_cons. by left.
      * destruct (bool_decide (base0 = "XBT")); [| by apply elem_of_nil in Halias].
        apply list_elem_of_singleton in Halias as ->. discriminate Hbase.
      * apply elem_of_cons. right. apply elem_of_app. right. by apply IHtwin.
Qed.

Lemma kraken_load_directory_witness :
  Forall (λ p, String.prefix "PF_" (symbol p) = true) kraken_pairs
  ∧ ∀ p, p ∈ kraken_pairs → base p = "XBT" →
         {| base := "BTC"; quote := quote p; symbol := symbol p |} ∈ kraken_pairs.
Proof.
  apply (kraken_load_directory kraken_tickers kraken_pairs).
  reflexivity.
Defined.



Lemma kraken_load_loop_app good tickers pairs0 :
  kraken_load_loop (good ++ tickers) pairs0
  = match kraken_load_loop good pairs0 with
    | inl e => inl e
    | inr loaded => kraken_load_loop tickers loaded
    end.
Proof.
  revert pairs0. induction good as [|ticker good IH]; intros pairs0; [reflexivity |].
  cbn [app kraken_load_loop].
  destruct (if bool_decide (ticker !! "tag" = Some "perpetual") then _ else _)
    as [e|[]]; cbn [mbind outcome_bind negb]; [reflexivity | | apply IH].
  destruct (ticker !! "pair") as [pair0|]; [| reflexivity].
  destruct (split_on ":" pair0) as [|base0 [|quote0 [|]]]; try reflexivity.
  destruct (ticker !! "symbol") as [native|]; [| reflexivity].
  apply IH.
Qed.

(** X18: a perpetual ticker without a symbol, or a perpetual PF_ ticker
    whose pair does not split at ":" into exactly two parts, aborts the
    load, with AttributeError or with ValueError, after any tickers that
    loaded; no directory is returned. *)
Theorem kraken_load_aborts good bad rest loaded e :
  kraken_load_exchange_pairs good = inr loaded →
  bad !! "tag" = Some "perpetual" →
  (bad !! "symbol" = None ∧ e = AttributeError)
  ∨ (∃ native pair0,
        bad !! "symbol" = Some native ∧ String.prefix "PF_" native = true
        ∧ bad !! "pair" = Some pair0 ∧ length (split_on ":" pair0) ≠ 2
        ∧ e = ValueError) →
  kraken_load_exchange_pairs (good ++ bad :: rest) = inl e.
Proof.
  intros Hgood Htag Hbad. unfold kraken_load_exchange_pairs in *.
  rewrite kraken_load_loop_app, Hgood. cbn [kraken_load_loop].
  rewrite bool_decide_eq_true_2 by done.
  destruct Hbad as [[-> ->] | (native & pair0 & -> & -> & -> & Hlen & ->)];
    [reflexivity |].
  cbn [mbind outcome_bind negb].
  by destruct (split_on ":" pair0) as [|base0 [|quote0 [|]]].
Qed.

Lemma kraken_load_aborts_witness :
  kraken_load_exchange_pairs
    (kraken_tickers ++ {[ "pair" := "XBTUSD"; "symbol" := "PF_XBTUSD"; "tag" := "perpetual" ]}
                    :: [])
  = inl ValueError.
Proof.
  apply (kraken_load_aborts kraken_tickers
           {[ "pair" := "XBTUSD"; "symbol" := "PF_XBTUSD"; "tag" := "perpetual" ]}
           [] kraken_pairs ValueError).
  - reflexivity.
  - reflexivity.
  - right. exists "PF_XBTUSD", "XBTUSD". split_and!; [reflexivity .. | | reflexivity].
    simpl. lia.
Defined.

(** ** Selection and execution *)

Section execution.
Local Open Scope Q_scope.

Lemma gather_app {X} (before after : list (M X)) (s : gmap nat OrderBook) :
  gather (before ++ after) s
  = let '(r1, s1) := gather before s in
    let '(r2, s2) := gather after s1 in
    (match r1, r2 with
     | inl e, _ => inl e
     | inr _, inl e => inl e
     | inr xs, inr ys => inr (xs ++ ys)
     end, s2).
Proof.
  revert s. induction before as [|c before IH]; intros s.
  - simpl. by destruct (gather after s) as [[e|ys] s2].
  - cbn [app gather]. destruct (c s) as [r s0]. rewrite IH.
    destruct (gather before s0) as [r1 s1]. destruct (gather after s1) as [r2 s2].
    by destruct r as [e|x], r1 as [e1|xs], r2 as [e2|ys].
Qed.

(** The first estimate that raises decides the result of [gather]. *)
Lemma gather_first_failure {X} (before after : list (M X)) (bad : M X) s results s1 e s2 :
  gather before s = (inr results, s1) →
  bad s1 = (inl e, s2) →
  (gather (before ++ bad :: after) s).1 = inl e.
Proof.
  intros Hbefore Hbad. rewrite gather_app, Hbefore. cbn [gather]. rewrite Hbad.
  by destruct (gather after s2) as [[e'|ys] s3].
Qed.

(** X19: when the estimate of one exchange raises, after those of the
    exchanges before it returned, the selection raises that exception,
    whatever the exchanges after it return, and
    [execute_market_buy_for_lowest_price] places no order. *)
Theorem failed_estimate_aborts execute_market_order before bad after symbol0 amount
    s prices s1 e s2 :
  gather (map (λ exchange, get_estimated_market_buy_price exchange symbol0 amount) before) s
  = (inr prices, s1) →
  get_estimated_market_buy_price bad symbol0 amount s1 = (inl e, s2) →
  (get_lowest_market_buy_price (before ++ bad :: after) symbol0 amount s).1 = inl e
  ∧ (execute_market_buy_for_lowest_price execute_market_order (before ++ bad :: after)
       symbol0 amount s).1 = inl e.
Proof.
  intros Hbefore Hbad.
  assert ((get_lowest_market_buy_price (before ++ bad :: after) symbol0 amount s).1 = inl e)
    as Hlowest.
  { unfold get_lowest_market_buy_price, mbind, M_bind.
    rewrite map_app. cbn [map].
    pose proof (gather_first_failure _
                  (map (λ exchange, get_estimated_market_buy_price exchange symbol0 amount)
                       after)
                  (get_estimated_market_buy_price bad symbol0 amount)
                  _ _ _ _ _ Hbefore Hbad) as Hgather.
    destruct (gather (_ ++ _) s) as [[e'|ps] s3]; cbn [fst] in Hgather; [| discriminate].
    by injection Hgather as ->. }
  split; [done |].
  unfold execute_market_buy_for_lowest_price, mbind, M_bind.
  destruct (get_lowest_market_buy_price _ _ _ s) as [[e'|[p best]] s3];
    cbn [fst] in Hlowest; [| discriminate].
  by injection Hlowest as ->.
Qed.

Lemma failed_estimate_aborts_witness :
  (get_lowest_market_buy_price ([binance_double] ++ kraken_double :: [tied_double])
     "BTCUSDT" 100 ∅).1
  = inl (ExchangePairDoesNotExistError "Trading pair 'BTCUSDT' not found on 'Kraken Futures'")
  ∧ (execute_market_buy_for_lowest_price
       (λ exchange _ _ _, raise (RuntimeError (name exchange)))
       ([binance_double] ++ kraken_double :: [tied_double]) "BTCUSDT" 100 ∅).1
    = inl (ExchangePairDoesNotExistError "Trading pair 'BTCUSDT' not found on 'Kraken Futures'").
Proof.
  eapply (failed_estimate_aborts _ [binance_double] kraken_double [tied_double] "BTCUSDT" 100 ∅).
  - reflexivity.
  - reflexivity.
Defined.
End execution.

(** ** Buying at the lowest estimate *)

Section buying.
Local Open Scope Q_scope.

(** The selection among distinct estimates, for use below. *)
Lemma lowest_selection exchanges symbol0 amount s prices s' :
  exchanges ≠ [] →
  gather (map (λ exchange, get_estimated_market_buy_price exchange symbol0 amount)
              exchanges) s = (inr prices, s') →
  (∀ i j p q, prices !! i = Some p → prices !! j = Some q → p == q → i = j) →
  ∃ i best_price best_exchange,
    get_lowest_market_buy_price exchanges symbol0 amount s
    = (inr (best_price, best_exchange), s')
    ∧ prices !! i = Some best_price
    ∧ exchanges !! i = Some best_exchange
    ∧ ∀ j p, prices !! j = Some p → j ≠ i → best_price < p.
Proof.
  intros Hne Hgather Hdistinct.
  pose proof (gather_length _ _ _ _ Hgather) as Hlen. rewrite length_map in Hlen.
  set (items := zip prices exchanges).
  assert (distinct_prices items) as Hd.
  { intros i j a b Hi Hj Heq. subst items.
    apply lookup_zip_with_Some in Hi as (p & e & -> & Hp & _).
    apply lookup_zip_with_Some in Hj as (q & e' & -> & Hq & _).
    by apply (Hdistinct i j p q). }
  destruct (push_all_root items items []) as (heap & Hpush & Hperm & Hroot);
    [done | constructor | by apply Forall_forall | by left |].
  simpl in Hperm.
  destruct Hroot as [-> | (r & Hr0 & Hmin)].
  { apply Permutation_nil_l in Hperm. subst items.
    destruct prices, exchanges; simplify_eq/=. }
  destruct heap as [|r' heap]; [done |]. injection Hr0 as ->.
  assert (Forall (λ x, x ∈ items) (r :: heap)) as Hall.
  { apply Forall_forall. intros x Hx. by rewrite <- Hperm. }
  destruct (heappop_root tuple_lt (λ x, x ∈ items)) with (r := r) (heap := heap)
    as (heap' & Hpop); [intros; by eapply tuple_lt_defined | done |].
  assert (r ∈ items) as Hr by (by apply Forall_cons in Hall as [? _]).
  apply list_elem_of_lookup in Hr as [i Hi].
  pose proof Hi as Hi'. subst items.
  apply lookup_zip_with_Some in Hi' as (best_price & best_exchange & -> & Hp & He).
  exists i, best_price, best_exchange. split_and!; [| done | done |].
  - unfold get_lowest_market_buy_price, mbind, M_bind, lift, mret, M_ret.
    rewrite Hgather, Hpush, Hpop. reflexivity.
  - intros j p Hj Hji.
    destruct (lookup_lt_is_Some_2 exchanges j) as [e Hej].
    { rewrite <- Hlen. by eapply lookup_lt_Some. }
    assert (zip prices exchanges !! j = Some (p, e)) as Hitem.
    { apply lookup_zip_with_Some. by exists p, e. }
    assert ((p, e) ∈ zip prices exchanges) as Hin by (by eapply list_elem_of_lookup_2).
    assert (best_price <= p) as Hle.
    { apply (not_after_price (zip prices exchanges) (best_price, best_exchange) (p, e));
        [done | by eapply list_elem_of_lookup_2 | done |].
      apply Hmin. by rewrite Hperm. }
    destruct (Qeq_dec best_price p) as [Heq|Hneq].
    + destruct Hji. symmetry. by apply (Hdistinct i j best_price p).
    + apply Qle_lteq in Hle as [? | ?]; done.
Qed.

(** X20: when every estimate returns and no two are equal,
    [execute_market_buy_for_lowest_price] places one BUY order, of the
    requested amount and for the requested symbol, on the exchange whose
    estimate is strictly the lowest, once all the estimates are made. *)
Theorem execute_buys_on_cheapest execute_market_order exchanges symbol0 amount s prices s' :
  exchanges ≠ [] →
  gather (map (λ exchange, get_estimated_market_buy_price exchange symbol0 amount)
              exchanges) s = (inr prices, s') →
  (∀ i j p q, prices !! i = Some p → prices !! j = Some q → p == q → i = j) →
  ∃ i best_price best_exchange,
    prices !! i = Some best_price
    ∧ exchanges !! i = Some best_exchange
    ∧ (∀ j p, prices !! j = Some p → j ≠ i → best_price < p)
    ∧ execute_market_buy_for_lowest_price execute_market_order exchanges symbol0 amount s
      = execute_market_order best_exchange symbol0 amount BUY s'.
Proof.
  intros Hne Hgather Hdistinct.
  destruct (lowest_selection _ _ _ _ _ _ Hne Hgather Hdistinct)
    as (i & best_price & best_exchange & Hlowest & Hp & He & Hmin).
  exists i, best_price, best_exchange. split_and!; [done .. |].
  unfold execute_market_buy_for_lowest_price, mbind, M_bind. by rewrite Hlowest.
Qed.

Lemma execute_buys_on_cheapest_witness :
  ∃ i best_price best_exchange,
    [0.5481 * 100 / 100; 0.55 * 100 / 100] !! i = Some best_price
    ∧ [binance_double; kraken_double] !! i = Some best_exchange
    ∧ (∀ j p, [0.5481 * 100 / 100; 0.55 * 100 / 100] !! j = Some p → j ≠ i → best_price < p)
    ∧ execute_market_buy_for_lowest_price
        (λ exchange _ _ _, raise (RuntimeError (name exchange)))
        [binance_double; kraken_double] "ADAEUR" 100 ∅
      = (λ exchange _ _ _, raise (RuntimeError (name exchange)))
          best_exchange "ADAEUR" 100 BUY
          (gather (map (λ exchange, get_estimated_market_buy_price exchange "ADAEUR" 100)
                       [binance_double; kraken_double]) ∅).2.
Proof.
  apply (execute_buys_on_cheapest (λ exchange _ _ _, raise (RuntimeError (name exchange)))
           [binance_double; kraken_double] "ADAEUR" 100 ∅).
  - discriminate.
  - reflexivity.
  - intros [|[|i]] [|[|j]] p q Hp Hq Heq; simpl in Hp, Hq; try discriminate;
      try reflexivity; injection Hp as <-; injection Hq as <-; discriminate Heq.
Defined.

Lemma heappush_pair {A} (lt : A → A → result bool) (x y z : A) :
  heappush lt [x; y] z = c ← lt z x; mret (if c : bool then [z; y; x] else [x; y; z]).
Proof.
  unfold heappush, _siftdown.
  cbn [app length Nat.sub py_index lookup list_lookup mbind result_bind].
  rewrite siftdown_loop_step. rewrite decide_True by lia.
  change ((2 - 1) / 2)%nat with 0%nat.
  cbn [py_index lookup list_lookup mbind result_bind].
  destruct (lt z x) as [|[]]; cbn [mbind result_bind]; [reflexivity | | reflexivity].
  rewrite siftdown_loop_step. reflexivity.
Qed.

Lemma heappop_triple {A} (lt : A → A → result bool) (x y z : A) :
  heappop lt [x; y; z] = c ← lt z y; mret (x, if c : bool then [z; y] else [y; z]).
Proof.
  unfold heappop. cbn [last removelast insert list_insert].
  unfold _siftup. cbn [length py_index lookup list_lookup mbind result_bind].
  rewrite siftup_loop_step. rewrite decide_True by lia.
  rewrite decide_False by lia. cbn [mret result_ret mbind result_bind].
  cbn [Nat.mul Nat.add py_index lookup list_lookup mbind result_bind insert list_insert].
  rewrite siftup_loop_step. rewrite decide_False by lia.
  cbn [mbind result_bind insert list_insert].
  unfold _siftdown. cbn [py_index lookup list_lookup mbind result_bind].
  rewrite siftdown_loop_step. rewrite decide_True by lia.
  change ((1 - 1) / 2)%nat with 0%nat.
  cbn [py_index lookup list_lookup mbind result_bind].
  destruct (lt z y) as [|[]]; cbn [mbind result_bind]; [reflexivity | | reflexivity].
  rewrite siftdown_loop_step. reflexivity.
Qed.

(** X21: a strictly lowest estimate does not protect the selection from
    ties elsewhere: with three exchanges, the first strictly cheapest
    and the two others, distinct instances, at equal estimates,
    [get_lowest_market_buy_price] raises TypeError, in [heappop]. *)
Theorem tie_above_the_minimum_raises a b c symbol0 amount s pa pb pc s' :
  gather (map (λ exchange, get_estimated_market_buy_price exchange symbol0 amount)
              [a; b; c]) s = (inr [pa; pb; pc], s') →
  pa < pb → pb == pc → obj_id b ≠ obj_id c →
  get_lowest_market_buy_price [a; b; c] symbol0 amount s = (inl TypeError, s').
Proof.
  intros Hgather Hlt Heq Hid.
  unfold get_lowest_market_buy_price, mbind, M_bind, lift. rewrite Hgather.
  assert (push_all [] (zip [pa; pb; pc] [a; b; c]) = inr [(pa, a); (pb, b); (pc, c)]) as ->.
  { cbn [zip zip_with push_all].
    rewrite heappush_empty. cbn [mbind result_bind].
    rewrite heappush_singleton, tuple_lt_differ by (cbn [fst]; lra).
    cbn [fst mbind result_bind mret result_ret].
    rewrite (proj2 (Qgtb_false pa pb)) by lra.
    rewrite heappush_pair, tuple_lt_differ by (cbn [fst]; lra).
    cbn [fst mbind result_bind mret result_ret].
    by rewrite (proj2 (Qgtb_false pa pc)) by lra. }
  rewrite heappop_triple. unfold tuple_lt. cbn [fst snd].
  rewrite (proj2 (Qeq_bool_iff pc pb)) by lra.
  rewrite bool_decide_eq_false_2 by congruence. reflexivity.
Qed.

Lemma tie_above_the_minimum_raises_witness :
  get_lowest_market_buy_price [binance_double; kraken_double; tied_double] "ADAEUR" 100 ∅
  = (inl TypeError,
     (gather (map (λ exchange, get_estimated_market_buy_price exchange "ADAEUR" 100)
                  [binance_double; kraken_double; tied_double]) ∅).2).
Proof.
  apply (tie_above_the_minimum_raises binance_double kraken_double tied_double "ADAEUR" 100 ∅
           (0.5481 * 100 / 100) (0.55 * 100 / 100) (0.55 * 100 / 100)).
  - reflexivity.
  - reflexivity.
  - reflexivity.
  - discriminate.
Defined.
End buying.

(** ** Market orders on Kraken Futures *)

Section kraken_orders.
Local Open Scope Q_scope.

Lemma comprehension_Forall2 {X Y} (f : X → result Y) l ys :
  comprehension f l = inr ys → Forall2 (λ x y, f x = inr y) l ys.
Proof.
  revert ys. induction l as [|x l IH]; intros ys Hc.
  - injection Hc as <-. constructor.
  - cbn [comprehension] in Hc. destruct (f x) as [e|y] eqn:Hy; [discriminate |].
    cbn [mbind result_bind] in Hc.
    destruct (comprehension f l) as [e|ys']; [discriminate |].
    injection Hc as <-. constructor; [done | by apply IH].
Qed.

(** X22: for an identifier that no pair of the directory matches,
    [execute_market_order] raises ExchangePairDoesNotExistError before
    any request is made: no order reaches the venue. *)
Theorem kraken_execute_unknown_pair self make_request pair0 order_size action :
  Forall (λ q, symbol q ≠ pair0 ∧ base q +:+ quote q ≠ pair0) (pairs self) →
  kraken_execute_market_order self make_request pair0 order_size action
  = inl (ExchangePairDoesNotExistError
           ("Trading pair '" +:+ pair0 +:+ "' not found on '" +:+ name self +:+ "'")).
Proof.
  intros Hunmatched. unfold kraken_execute_market_order, get_pair.
  by rewrite (get_pair_from_unmatched _ _ _ Hunmatched).
Qed.

Lemma kraken_execute_unknown_pair_witness :
  kraken_execute_market_order kraken_double (λ _, inr (JNull, kraken_send_status))
    "DOGEUSD" 0.001 BUY
  = inl (ExchangePairDoesNotExistError "Trading pair 'DOGEUSD' not found on 'Kraken Futures'").
Proof.
  apply (kraken_execute_unknown_pair kraken_double (λ _, inr (JNull, kraken_send_status))
           "DOGEUSD" 0.001 BUY).
  repeat constructor; discriminate.
Defined.

(** X23: an order that [execute_market_order] returns was sent for the
    native symbol of the resolved pair and answered with events the last
    of which is an EXECUTION; it records one fill per event, whatever the
    type of the event, the requested size as its quantity, and as
    [filled] the sum of the quantities of its fills. *)
Theorem kraken_execute_order self make_request pair0 order_size action order :
  kraken_execute_market_order self make_request pair0 order_size action = inr order →
  ∃ p response sendStatus final,
    get_pair self pair0 = inr p
    ∧ make_request {| param_symbol := symbol p; param_side := side_of action;
                      param_orderType := "mkt"; param_size := order_size;
                      param_leverage := 1 |} = inr (response, sendStatus)
    ∧ last (orderEvents sendStatus) = Some final
    ∧ event_type final = "EXECUTION"
    ∧ order_pair order = symbol p
    ∧ order_action order = action
    ∧ order_quantity order = order_size
    ∧ Forall2 (λ event (fill : Fill),
                 event_price event = Some fill.1 ∧ event_amount event = Some fill.2)
              (orderEvents sendStatus) (order_fills order)
    ∧ order_filled order == Qsum (map snd (order_fills order)).
Proof.
  unfold kraken_execute_market_order. intros Hrun.
  destruct (get_pair self pair0) as [e|p]; [discriminate |].
  cbn [mbind result_bind] in Hrun. cbv zeta in Hrun.
  destruct (make_request _) as [e|[response sendStatus]] eqn:Hrequest; [discriminate |].
  cbn [mbind result_bind] in Hrun.
  destruct (last (orderEvents sendStatus)) as [final|] eqn:Hlast; [| discriminate].
  cbn [mbind result_bind] in Hrun.
  case_bool_decide as Htype; cbn [negb] in Hrun; [| discriminate].
  destruct (comprehension (λ fill, event_float (event_price fill) "price" ≫= _)
              (orderEvents sendStatus)) as [e|fills0] eqn:Hfills in Hrun;
    cbn [mbind result_bind] in Hrun; [discriminate |].
  destruct (comprehension (λ fill, event_float (event_amount fill) "amount")
              (orderEvents sendStatus)) as [e|amounts] eqn:Hamounts in Hrun;
    cbn [mbind result_bind] in Hrun; [discriminate |].
  injection Hrun as <-. cbn [order_pair order_action order_quantity order_fills order_filled].
  exists p, response, sendStatus, final. split_and!; try done.
  - apply comprehension_Forall2 in Hfills.
    eapply Forall2_impl; [exact Hfills |]. intros event [price0 amount] Hevent.
    unfold event_float in Hevent.
    destruct (event_price event); [| discriminate].
    destruct (event_amount event); [| discriminate].
    by injection Hevent as -> ->.
  - rewrite py_sum_Qsum. apply comprehension_Forall2 in Hfills, Hamounts.
    assert (amounts = map snd fills0) as ->; [| reflexivity].
    clear -Hfills Hamounts. revert amounts Hamounts.
    induction Hfills as [|event [price0 amount] events fills0 Hevent _ IH];
      intros amounts Hamounts; inversion Hamounts as [|? amount' ? amounts' Ha Hrest]; subst;
      [reflexivity |].
    simpl. f_equal; [| by apply IH].
    unfold event_float in Hevent, Ha.
    destruct (event_price event); [| discriminate].
    destruct (event_amount event); [| discriminate].
    injection Hevent as _ <-. by injection Ha as <-.
Qed.

Lemma kraken_execute_order_witness :
  ∃ order p response sendStatus final,
    kraken_execute_market_order kraken_double (λ _, inr (JNull, kraken_send_status))
      "BTCUSD" 0.001 BUY = inr order
    ∧ get_pair kraken_double "BTCUSD" = inr p
    ∧ (λ _ : SendOrder, @inr exn _ (JNull, kraken_send_status))
        {| param_symbol := symbol p; param_side := side_of BUY;
           param_orderType := "mkt"; param_size := 0.001; param_leverage := 1 |}
      = inr (response, sendStatus)
    ∧ last (orderEvents sendStatus) = Some final
    ∧ event_type final = "EXECUTION"
    ∧ order_pair order = symbol p
    ∧ order_action order = BUY
    ∧ order_quantity order = 0.001
    ∧ Forall2 (λ event (fill : Fill),
                 event_price event = Some fill.1 ∧ event_amount event = Some fill.2)
              (orderEvents sendStatus) (order_fills order)
    ∧ order_filled order == Qsum (map snd (order_fills order)).
Proof.
  eexists. 
  pose proof (kraken_execute_order kraken_double (λ _, inr (JNull, kraken_send_status))
                "BTCUSD" 0.001 BUY _ eq_refl) as (p & response & sendStatus & final & H).
  exists p, response, sendStatus, final. split; [reflexivity | exact H].
Defined.
End kraken_orders.

(** ** The default stablecoin *)

(** X24: without a stablecoin configured, or with USD itself,
    [Binance.load_exchange_pairs] adds no alias: the directory holds one
    pair per market listed, in the order of the venue, with the base, the
    quote and the symbol of the market. *)
Theorem binance_load_default_stablecoin usd_stablecoin symbols pairs0 :
  init_usd_stablecoin usd_stablecoin = "USD" →
  binance_load_exchange_pairs (init_usd_stablecoin usd_stablecoin) symbols = inr pairs0 →
  Forall2 (λ entry p, entry !! "baseAsset" = Some (base p)
                      ∧ entry !! "quoteAsset" = Some (quote p)
                      ∧ entry !! "symbol" = Some (symbol p))
          symbols pairs0.
Proof.
  intros ->. revert pairs0. induction symbols as [|entry rest IH]; intros pairs0 Hload.
  - injection Hload as <-. constructor.
  - apply binance_load_inv in Hload as (b & q & n & loaded & Hb & Hq & Hn & Hrest & ->).
    assert (bool_decide (q = "USD") && negb (bool_decide (q = "USD")) = false) as ->
      by (by destruct (bool_decide (q = "USD"))).
    constructor; [done | by apply IH].
Qed.

Lemma binance_load_default_stablecoin_witness :
  Forall2 (λ entry p, entry !! "baseAsset" = Some (base p)
                      ∧ entry !! "quoteAsset" = Some (quote p)
                      ∧ entry !! "symbol" = Some (symbol p))
          binance_symbols
          [ {| base := "BTC"; quote := "USDT"; symbol := "BTCUSDT" |};
            {| base := "ADA"; quote := "EUR"; symbol := "ADAEUR" |} ].
Proof.
  apply (binance_load_default_stablecoin None binance_symbols).
  - reflexivity.
  - reflexivity.
Defined.

(** ** The iteration order of the exchange set *)

Section iteration_order.
Local Open Scope Q_scope.

Lemma gather_lookup {X} (f : CryptocurrencyExchange → M X) exchanges s results s' :
  gather (map f exchanges) s = (inr results, s') →
  ∀ i exchange, exchanges !! i = Some exchange →
    ∃ si r, (f exchange si).1 = inr r ∧ results !! i = Some r.
Proof.
  revert s results. induction exchanges as [|x exchanges IH]; intros s results Hg i exchange Hi;
    [done |].
  cbn [map gather] in Hg. destruct (f x s) as [r s0] eqn:Hx.
  destruct (gather (map f exchanges) s0) as [rs s2] eqn:Hrec.
  destruct r as [e|y], rs as [e'|ys]; try discriminate.
  injection Hg as <- <-. destruct i as [|i].
  - injection Hi as <-. exists s, y. by rewrite Hx.
  - by apply (IH _ _ Hrec).
Qed.

Lemma gather_returns {X} (f : CryptocurrencyExchange → M X) exchanges :
  (∀ exchange, exchange ∈ exchanges → ∃ r, ∀ s, (f exchange s).1 = inr r) →
  ∀ s, ∃ results s', gather (map f exchanges) s = (inr results, s').
Proof.
  induction exchanges as [|x exchanges IH]; intros Hall s; [by eexists _, _ |].
  cbn [map gather]. destruct (Hall x) as [r Hr]; [apply elem_of_cons; by left |].
  specialize (Hr s). destruct (f x s) as [r0 s0]. cbn [fst] in Hr. subst r0.
  destruct (IH (λ exchange Hin, Hall exchange (proj2 (elem_of_cons _ _ _) (or_intror Hin))) s0)
    as (results & s' & ->).
  by eexists _, _.
Qed.

(** X25: when the estimate of each exchange does not depend on the
    store, as with the adapters, and the estimates are pairwise
    distinct, the selection does not depend on the order in which the
    exchange set is iterated: any other order returns the same price and
    the same exchange. *)
Theorem selection_independent_of_order exchanges exchanges' symbol0 amount s t prices s1 :
  exchanges ≡ₚ exchanges' →
  exchanges ≠ [] →
  (∀ exchange, exchange ∈ exchanges →
     ∀ u u', (get_estimated_market_buy_price exchange symbol0 amount u).1
             = (get_estimated_market_buy_price exchange symbol0 amount u').1) →
  gather (map (λ exchange, get_estimated_market_buy_price exchange symbol0 amount)
              exchanges) s = (inr prices, s1) →
  (∀ i j p q, prices !! i = Some p → prices !! j = Some q → p == q → i = j) →
  (get_lowest_market_buy_price exchanges' symbol0 amount t).1
  = (get_lowest_market_buy_price exchanges symbol0 amount s).1.
Proof.
  intros Hperm Hne Hstable Hgather Hdistinct.
  set (f := λ exchange, get_estimated_market_buy_price exchange symbol0 amount) in *.
  pose proof (gather_lookup f _ _ _ _ Hgather) as Hprices.
  (* every exchange has one estimate, in any store *)
  assert (∀ exchange, exchange ∈ exchanges → ∃ r, ∀ u, (f exchange u).1 = inr r) as Hvalue.
  { intros exchange [i Hi]%list_elem_of_lookup.
    destruct (Hprices i exchange Hi) as (si & r & Hr & _).
    exists r. intros u. rewrite <- Hr. apply Hstable. by eapply list_elem_of_lookup_2. }
  destruct (gather_returns f exchanges') with (s := t) as (prices' & t1 & Hgather').
  { intros exchange Hin. apply Hvalue. by rewrite Hperm. }
  pose proof (gather_lookup f _ _ _ _ Hgather') as Hprices'.
  (* the two lists of prices agree along the permutation, both ways *)
  assert (∀ (l l' : list CryptocurrencyExchange) (ps ps' : list Q) (g : nat → nat),
            (∀ i, l !! i = l' !! g i) →
            (∀ exchange, exchange ∈ l → ∀ u u', (f exchange u).1 = (f exchange u').1) →
            (∀ i exchange, l !! i = Some exchange →
               ∃ si r, (f exchange si).1 = inr r ∧ ps !! i = Some r) →
            (∀ i exchange, l' !! i = Some exchange →
               ∃ si r, (f exchange si).1 = inr r ∧ ps' !! i = Some r) →
            ∀ i exchange, l !! i = Some exchange → ps !! i = ps' !! g i) as Halong.
  { intros l l' ps ps' g Hg Hst Hps Hps' i exchange Hi.
    destruct (Hps i exchange Hi) as (si & r & Hr & ->).
    rewrite Hg in Hi. destruct (Hps' _ exchange Hi) as (si' & r' & Hr' & ->).
    rewrite (Hst exchange) with (u' := si') in Hr.
    - congruence.
    - apply list_elem_of_lookup. exists i. by rewrite Hg. }
  apply Permutation_inj in Hperm as Hto. destruct Hto as (Hlen & g & Hg_inj & Hg).
  symmetry in Hperm.
  apply Permutation_inj in Hperm as Hfrom. destruct Hfrom as (_ & h & Hh_inj & Hh).
  assert (∀ exchange, exchange ∈ exchanges' →
            ∀ u u', (f exchange u).1 = (f exchange u').1) as Hstable'.
  { intros exchange Hin. apply Hstable. by rewrite <- Hperm. }
  pose proof (Halong exchanges exchanges' prices prices' g Hg Hstable Hprices Hprices') as Hgo.
  pose proof (Halong exchanges' exchanges prices' prices h Hh Hstable' Hprices' Hprices)
    as Hback.
  (* so the prices of the other order are pairwise distinct too *)
  pose proof (gather_length _ _ _ _ Hgather) as Hlp. rewrite length_map in Hlp.
  pose proof (gather_length _ _ _ _ Hgather') as Hlp'. rewrite length_map in Hlp'.
  assert (∀ i j p q, prices' !! i = Some p → prices' !! j = Some q → p == q → i = j)
    as Hdistinct'.
  { intros i j p q Hp Hq Heq.
    destruct (lookup_lt_is_Some_2 exchanges' i) as [ei Hei];
      [rewrite <- Hlp'; by eapply lookup_lt_Some |].
    destruct (lookup_lt_is_Some_2 exchanges' j) as [ej Hej];
      [rewrite <- Hlp'; by eapply lookup_lt_Some |].
    rewrite (Hback i ei Hei) in Hp. rewrite (Hback j ej Hej) in Hq.
    apply Hh_inj. by apply (Hdistinct (h i) (h j) p q). }
  destruct (lowest_selection exchanges symbol0 amount s prices s1 Hne Hgather Hdistinct)
    as (a & p & e & -> & Hp & He & Hmin).
  destruct (lowest_selection exchanges' symbol0 amount t prices' t1) as
    (k & p' & e' & -> & Hp' & He' & Hmin'); [| done | done |].
  { intros ->. apply Permutation_nil_l in Hperm. done. }
  cbn [fst].
  pose proof (Hgo a e He) as Ha. rewrite Hp in Ha.
  pose proof (Hback k e' He') as Hk. rewrite Hp' in Hk.
  destruct (decide (g a = k)) as [<- | Hga].
  - rewrite <- Ha in Hp'. injection Hp' as <-.
    rewrite <- Hg, He in He'. by injection He' as <-.
  - destruct (decide (h k = a)) as [<- | Hhk].
    + rewrite <- Hk in Hp. injection Hp as <-.
      rewrite <- Hh, He' in He. by injection He as <-.
    + pose proof (Hmin' (g a) p (eq_sym Ha) Hga).
      pose proof (Hmin (h k) p' (eq_sym Hk) Hhk). lra.
Qed.

Lemma selection_independent_of_order_witness :
  (get_lowest_market_buy_price [kraken_double; binance_double] "ADAEUR" 100
     {[ 7%nat := adaeur_book ]}).1
  = (get_lowest_market_buy_price [binance_double; kraken_double] "ADAEUR" 100 ∅).1.
Proof.
  eapply (selection_independent_of_order [binance_double; kraken_double]
            [kraken_double; binance_double] "ADAEUR" 100 ∅ {[ 7%nat := adaeur_book ]}).
  - apply perm_swap.
  - discriminate.
  - intros exchange Hin u u'.
    apply elem_of_cons in Hin as [-> | Hin];
      [| apply elem_of_cons in Hin as [-> | Hin]; [| by apply elem_of_nil in Hin]];
      apply adapter_estimate_repeatable.
  - reflexivity.
  - intros [|[|i]] [|[|j]] p q Hp Hq Heq; simpl in Hp, Hq; try discriminate;
      try reflexivity; injection Hp as <-; injection Hq as <-; discriminate Heq.
Defined.
End iteration_order.
